(** * in-toto-golang: the Metablock envelope and the string-set utilities

    A shallow embedding of [in_toto/util.go] and [in_toto/model.go] with the
    properties stated about them.

    Go strings are byte sequences: they are [string] of the Standard Library
    (lists of [ascii] bytes).  A Go [map] is a reference: the string sets of
    [util.go] live in an explicit memory, and the receivers are programs of a
    small state-and-panic monad, so that aliasing and mutation are visible. *)

From Stdlib Require Import ZArith Ascii String.
From stdpp Require Import gmap strings list fin_maps.

#[local] Set Warnings "-register-all,-clear-no-such-hyp".

(** ** The memory of Go maps used as sets *)

Definition loc := positive.

(** [type Set map[string]struct{}]: a value of the type is either the nil map
    or a reference to a map object; the keys of the object are the elements. *)
Inductive StringSet : Type :=
| nilMap
| mapRef (l : loc).

(** What a call can read and change: the map objects by address, and the
    lines written to standard output. *)
Record world : Type := World {
  mem : gmap loc (gset string);
  stdout : list string
}.

Definition set_mem (f : gmap loc (gset string) → gmap loc (gset string))
    (w : world) : world :=
  {| mem := f (mem w); stdout := stdout w |}.

(** A call either returns a value and the world it leaves, or panics. *)
Inductive outcome (A : Type) : Type :=
| Done (a : A) (w : world)
| Panic (msg : string).
Arguments Done {A} a w.
Arguments Panic {A} msg.

Definition M (A : Type) : Type := world → outcome A.

#[global] Instance M_ret : MRet M := λ A a w, Done a w.
#[global] Instance M_bind : MBind M := λ A B f m w,
  match m w with
  | Done a w' => f a w'
  | Panic msg => Panic msg
  end.

(** [for _, x := range l { body }] over an already computed sequence. *)
Fixpoint forEach {A : Type} (l : list A) (body : A → M unit) : M unit :=
  match l with
  | [] => mret ()
  | x :: l' => body x;; forEach l' body
  end.

(** [for _, x := range xs { res[i] = f(x); i++ }] on a slice [res]: an index
    outside the slice panics (no result). *)
Fixpoint assign_each {A B : Type} (f : A → B) (xs : list A) (i : nat)
    (res : list B) : option (list B) :=
  match xs with
  | [] => Some res
  | x :: xs' =>
      if decide (i < length res) then assign_each f xs' (S i) (<[i := f x]> res)
      else None
  end.

(** [continue]: the rest of the loop body is skipped. *)
Definition continue : M unit := mret ().

(** [make(map[string]struct{})]: a new, empty map object at an unused address. *)
Definition make_map : M StringSet := λ w,
  let l := fresh (dom (mem w)) in Done (mapRef l) (set_mem (insert l ∅) w).

(** [fmt.Printf] with its arguments already formatted. *)
Definition Printf (text : string) : M unit := λ w,
  Done () {| mem := mem w; stdout := stdout w ++ [text] |}.

(** The map object a set value denotes: the nil map reads as the empty map; a
    reference outside the memory denotes nothing (Go has no such reference,
    the model panics on one). *)
Definition contents (w : world) (s : StringSet) : option (gset string) :=
  match s with
  | nilMap => Some ∅
  | mapRef l => mem w !! l
  end.

Definition valid (w : world) (s : StringSet) : Prop := is_Some (contents w s).

Definition invalid_reference : string := "invalid memory address".
Definition nil_map_assignment : string := "assignment to entry in nil map".

(** ** Go's [unicode/utf8] and [path/filepath] as [Set.Filter] uses them

    [Filter] calls [filepath.Match] of Go's standard library.  The model below
    follows that function as it was in the Go releases of the time of the
    source (Go 1.10), on a Unix system, where the separator is the slash and
    the backslash escapes. *)

(** [s[n:]] *)
Fixpoint skip (n : nat) (s : string) : string :=
  match n, s with
  | O, _ => s
  | S n', String _ s' => skip n' s'
  | S _, EmptyString => EmptyString
  end.

(** [s[:n]] *)
Fixpoint upto (n : nat) (s : string) : string :=
  match n, s with
  | O, _ => EmptyString
  | S n', String c s' => String c (upto n' s')
  | S _, EmptyString => EmptyString
  end.

Definition byte_val (c : ascii) : Z := Z.of_N (N_of_ascii c).

Module utf8.

Definition RuneError : Z := 0xFFFD.

(** The [first] table with [acceptRanges]: for a leading byte that starts a
    multi-byte sequence, its length and the bounds on the second byte. *)
Definition first (s0 : Z) : option (nat * Z * Z) :=
  if (s0 <? 0xC2)%Z then None
  else if (s0 <=? 0xDF)%Z then Some (2, 0x80%Z, 0xBF%Z)
  else if (s0 =? 0xE0)%Z then Some (3, 0xA0%Z, 0xBF%Z)
  else if (s0 <=? 0xEC)%Z then Some (3, 0x80%Z, 0xBF%Z)
  else if (s0 =? 0xED)%Z then Some (3, 0x80%Z, 0x9F%Z)
  else if (s0 <=? 0xEF)%Z then Some (3, 0x80%Z, 0xBF%Z)
  else if (s0 =? 0xF0)%Z then Some (4, 0x90%Z, 0xBF%Z)
  else if (s0 <=? 0xF3)%Z then Some (4, 0x80%Z, 0xBF%Z)
  else if (s0 =? 0xF4)%Z then Some (4, 0x80%Z, 0x8F%Z)
  else None.

Definition continuation (b : Z) : bool := (0x80 <=? b)%Z && (b <=? 0xBF)%Z.

Definition low6 (b : Z) : Z := Z.land b 0x3F.

(** [DecodeRuneInString]: the first rune of [s] and its width in bytes;
    [(RuneError, 0)] for the empty string, [(RuneError, 1)] for an invalid
    encoding. *)
Definition DecodeRuneInString (s : string) : Z * nat :=
  match s with
  | EmptyString => (RuneError, 0)
  | String c0 t =>
      let s0 := byte_val c0 in
      if (s0 <? 0x80)%Z then (s0, 1)
      else
        match first s0 with
        | None => (RuneError, 1)
        | Some (sz, lo, hi) =>
            if String.length s <? sz then (RuneError, 1)
            else
              match t with
              | EmptyString => (RuneError, 1)
              | String c1 t1 =>
                  let s1 := byte_val c1 in
                  if (s1 <? lo)%Z || (hi <? s1)%Z then (RuneError, 1)
                  else if sz <=? 2 then
                    (Z.lor (Z.shiftl (Z.land s0 0x1F) 6) (low6 s1), 2)
                  else
                    match t1 with
                    | EmptyString => (RuneError, 1)
                    | String c2 t2 =>
                        let s2 := byte_val c2 in
                        if negb (continuation s2) then (RuneError, 1)
                        else if sz <=? 3 then
                          (Z.lor (Z.lor (Z.shiftl (Z.land s0 0x0F) 12)
                                        (Z.shiftl (low6 s1) 6)) (low6 s2), 3)
                        else
                          match t2 with
                          | EmptyString => (RuneError, 1)
                          | String c3 _ =>
                              let s3 := byte_val c3 in
                              if negb (continuation s3) then (RuneError, 1)
                              else
                                (Z.lor (Z.lor (Z.lor (Z.shiftl (Z.land s0 0x07) 18)
                                                     (Z.shiftl (low6 s1) 12))
                                              (Z.shiftl (low6 s2) 6)) (low6 s3), 4)
                          end
                    end
              end
        end
  end.

End utf8.

Module filepath.

Definition Separator : ascii := "/"%char.

Inductive error : Type := ErrBadPattern.

(** [err.Error()] *)
Definition Error (e : error) : string := "syntax error in pattern".

(** [strings.Contains(s, string(c))] *)
Fixpoint containsByte (c : ascii) (s : string) : bool :=
  match s with
  | EmptyString => false
  | String c' s' => Ascii.eqb c' c || containsByte c s'
  end.

(** The leading stars of [scanChunk]: whether there was one, and the rest. *)
Fixpoint skipStars (star : bool) (pattern : string) : bool * string :=
  match pattern with
  | String "*"%char pattern' => skipStars true pattern'
  | _ => (star, pattern)
  end.

(** The [Scan] loop of [scanChunk]: the index [i] at which it stops. *)
Fixpoint scanIndex (inrange : bool) (pattern : string) : nat :=
  match pattern with
  | EmptyString => 0
  | String c pattern' =>
      if Ascii.eqb c "\"%char then
        match pattern' with
        | EmptyString => 1
        | String _ pattern'' => 2 + scanIndex inrange pattern''
        end
      else if Ascii.eqb c "["%char then 1 + scanIndex true pattern'
      else if Ascii.eqb c "]"%char then 1 + scanIndex false pattern'
      else if Ascii.eqb c "*"%char then
        if inrange then 1 + scanIndex inrange pattern' else 0
      else 1 + scanIndex inrange pattern'
  end.

(** [scanChunk]: the next segment of the pattern, a star-free chunk possibly
    preceded by stars, and what follows it. *)
Definition scanChunk (pattern : string) : bool * string * string :=
  let '(star, pattern) := skipStars false pattern in
  let i := scanIndex false pattern in
  (star, upto i pattern, skip i pattern).

(** [getEsc]: a possibly escaped character of a character class. *)
Definition getEsc (chunk : string) : Z * string * option error :=
  match chunk with
  | EmptyString => (0%Z, EmptyString, Some ErrBadPattern)
  | String c chunk' =>
      if Ascii.eqb c "-"%char || Ascii.eqb c "]"%char
      then (0%Z, EmptyString, Some ErrBadPattern)
      else if Ascii.eqb c "\"%char && bool_decide (chunk' = EmptyString)
      then (0%Z, EmptyString, Some ErrBadPattern)
      else
        let chunk := if Ascii.eqb c "\"%char then chunk' else chunk in
        let '(r, n) := utf8.DecodeRuneInString chunk in
        let err := if (r =? utf8.RuneError)%Z && (n =? 1) then Some ErrBadPattern
                   else None in
        let nchunk := skip n chunk in
        let err := if String.length nchunk =? 0 then Some ErrBadPattern else err in
        (r, nchunk, err)
  end.

(** The loop of [matchChunk] that parses the ranges of a character class:
    the chunk after the closing bracket and whether [r] was in a range. *)
Fixpoint parseRanges (fuel : nat) (chunk : string) (r : Z) (matched : bool)
    (nrange : nat) : option (error + string * bool) :=
  match fuel with
  | O => None
  | S fuel' =>
      match chunk, nrange with
      | String "]"%char chunk', S _ => Some (inr (chunk', matched))
      | _, _ =>
          match getEsc chunk with
          | (_, _, Some err) => Some (inl err)
          | (lo, chunk, None) =>
              match chunk with
              | String "-"%char chunk' =>
                  match getEsc chunk' with
                  | (_, _, Some err) => Some (inl err)
                  | (hi, chunk, None) =>
                      parseRanges fuel' chunk r
                        (if (lo <=? r)%Z && (r <=? hi)%Z then true else matched)
                        (S nrange)
                  end
              | _ =>
                  parseRanges fuel' chunk r
                    (if (lo <=? r)%Z && (r <=? lo)%Z then true else matched)
                    (S nrange)
              end
          end
      end
  end.

(** [matchChunk]: whether the chunk matches a prefix of [s], and the rest of
    [s] if so.  The results are [(rest, ok, err)]; a plain [return] gives the
    zero values of the named results that were not set. *)
Fixpoint matchChunk_fuel (fuel : nat) (chunk s : string)
    : option (string * bool * option error) :=
  match chunk with
  | EmptyString => Some (s, true, None)
  | String c chunk' =>
      match s with
      | EmptyString => Some (EmptyString, false, None)
      | String s0 s' =>
          match fuel with
          | O => None
          | S fuel' =>
              if Ascii.eqb c "["%char then
                let '(r, n) := utf8.DecodeRuneInString s in
                let s := skip n s in
                match chunk' with
                | EmptyString => Some (EmptyString, false, Some ErrBadPattern)
                | String c1 chunk'' =>
                    let negated := Ascii.eqb c1 "^"%char in
                    let chunk := if negated then chunk'' else chunk' in
                    match parseRanges (S (String.length chunk)) chunk r false 0 with
                    | None => None
                    | Some (inl err) => Some (EmptyString, false, Some err)
                    | Some (inr (chunk, matched)) =>
                        if Bool.eqb matched negated
                        then Some (EmptyString, false, None)
                        else matchChunk_fuel fuel' chunk s
                    end
                end
              else if Ascii.eqb c "?"%char then
                if Ascii.eqb s0 Separator then Some (EmptyString, false, None)
                else
                  let '(_, n) := utf8.DecodeRuneInString s in
                  matchChunk_fuel fuel' chunk' (skip n s)
              else if Ascii.eqb c "\"%char then
                match chunk' with
                | EmptyString => Some (EmptyString, false, Some ErrBadPattern)
                | String c1 chunk'' =>
                    if negb (Ascii.eqb c1 s0) then Some (EmptyString, false, None)
                    else matchChunk_fuel fuel' chunk'' s'
                end
              else
                if negb (Ascii.eqb c s0) then Some (EmptyString, false, None)
                else matchChunk_fuel fuel' chunk' s'
          end
      end
  end.

(** Every turn of the loop consumes a byte of the chunk, so its length bounds
    the number of turns ([matchChunk_fuel_enough] below). *)
Definition matchChunk (chunk s : string) : option (string * bool * option error) :=
  matchChunk_fuel (String.length chunk) chunk s.

(** The loop of [Match] that looks for a match of the chunk further on in the
    name, skipping [i+1] bytes but never a separator. *)
Inductive skipped : Type :=
| Found (t : string)
| Failed (err : error)
| NotFound
| Exhausted.

Fixpoint skipLoop (chunk : string) (last : bool) (name : string) : skipped :=
  match name with
  | EmptyString => NotFound
  | String c name' =>
      if Ascii.eqb c Separator then NotFound
      else
        match matchChunk chunk name' with
        | None => Exhausted
        | Some (t, true, _) =>
            if last && (0 <? String.length t) then skipLoop chunk last name'
            else Found t
        | Some (_, false, Some err) => Failed err
        | Some (_, false, None) => skipLoop chunk last name'
        end
  end.

Fixpoint Match_fuel (fuel : nat) (pattern name : string)
    : option (bool * option error) :=
  match pattern with
  | EmptyString => Some (String.length name =? 0, None)
  | String _ _ =>
      match fuel with
      | O => None
      | S fuel' =>
          let '(star, chunk, pattern) := scanChunk pattern in
          if star && bool_decide (chunk = EmptyString)
          then Some (negb (containsByte Separator name), None)
          else
            match matchChunk chunk name with
            | None => None
            | Some (t, ok, err) =>
                if ok && ((String.length t =? 0) || (0 <? String.length pattern))
                then Match_fuel fuel' pattern t
                else
                  match err with
                  | Some e => Some (false, Some e)
                  | None =>
                      if star then
                        match skipLoop chunk (String.length pattern =? 0) name with
                        | Found t => Match_fuel fuel' pattern t
                        | Failed e => Some (false, Some e)
                        | NotFound => Some (false, None)
                        | Exhausted => None
                        end
                      else Some (false, None)
                  end
            end
      end
  end.

(** [Match]: every turn of the outer loop consumes a byte of the pattern, so
    its length bounds the number of turns ([Match_returns] below shows that
    the bound is never reached). *)
Definition Match (pattern name : string) : bool * option error :=
  default (false, Some ErrBadPattern)
    (Match_fuel (String.length pattern) pattern name).

End filepath.

Module util.
Section SetOperations.

(** Go leaves the iteration order of [range] over a map unspecified: the order
    is a parameter, any enumeration of the keys. *)
Variable rangeOrder : gset string → list string.
Hypothesis rangeOrder_perm : ∀ c, rangeOrder c ≡ₚ elements c.

(** [range s]: the keys of [s] at the time the loop starts. *)
Definition range (s : StringSet) : M (list string) := λ w,
  match contents w s with
  | Some c => Done (rangeOrder c) w
  | None => Panic invalid_reference
  end.

(** [_, ok := s[elem]; return ok] *)
Definition Has (s : StringSet) (elem : string) : M bool := λ w,
  match contents w s with
  | Some c => Done (bool_decide (elem ∈ c)) w
  | None => Panic invalid_reference
  end.

(** [s[elem] = struct{}{}] *)
Definition Add (s : StringSet) (elem : string) : M unit := λ w,
  match s with
  | nilMap => Panic nil_map_assignment
  | mapRef l =>
      match mem w !! l with
      | Some c => Done () (set_mem (insert l ({[elem]} ∪ c)) w)
      | None => Panic invalid_reference
      end
  end.

(** [delete(s, elem)]: a no-op on the nil map. *)
Definition Remove (s : StringSet) (elem : string) : M unit := λ w,
  match s with
  | nilMap => Done () w
  | mapRef l =>
      match mem w !! l with
      | Some c => Done () (set_mem (insert l (c ∖ {[elem]})) w)
      | None => Panic invalid_reference
      end
  end.

Definition NewSet (elems : list string) : M StringSet :=
  s ← make_map;
  forEach elems (λ elem, Add s elem);;
  mret s.

Definition Intersection (s s2 : StringSet) : M StringSet :=
  res ← NewSet [];
  elems ← range s;
  forEach elems (λ elem,
    b ← Has s2 elem;
    if bool_decide (b = false) then continue
    else Add res elem);;
  mret res.

Definition Difference (s s2 : StringSet) : M StringSet :=
  res ← NewSet [];
  elems ← range s;
  forEach elems (λ elem,
    b ← Has s2 elem;
    if (b : bool) then continue
    else Add res elem);;
  mret res.

(** [fmt.Printf("WARNING: %s, pattern was '%s'\n", err, pattern)] *)
Definition warning (err : filepath.error) (pattern : string) : string :=
  "WARNING: " +:+ filepath.Error err +:+ ", pattern was '" +:+ pattern +:+ "'"
  +:+ String "010"%char EmptyString.

Definition Filter (s : StringSet) (pattern : string) : M StringSet :=
  res ← NewSet [];
  elems ← range s;
  forEach elems (λ elem,
    let '(matched, err) := filepath.Match pattern elem in
    match err with
    | Some err => Printf (warning err pattern);; continue
    | None =>
        if negb matched then continue
        else Add res elem
    end);;
  mret res.

(** [Slice]: [res = append(res, elem)] for each key. *)
Definition Slice (s : StringSet) : M (list string) :=
  elems ← range s;
  mret (foldl (λ res elem, res ++ [elem]) [] elems).

End SetOperations.

(** [subsetCheck]: the inner loop answers whether [continue OUTER] is reached. *)
Fixpoint subsetCheck_inner (sub : string) (superset : list string) : bool :=
  match superset with
  | [] => false
  | super :: superset' =>
      if bool_decide (sub = super) then true
      else subsetCheck_inner sub superset'
  end.

Fixpoint subsetCheck (subset superset : list string) : bool :=
  match subset with
  | [] => true
  | sub :: subset' =>
      if subsetCheck_inner sub superset then subsetCheck subset' superset
      else false
  end.

Section InterfaceKeys.

(** The values of the map play no part: [V] stands for [interface{}].  The
    map is only read, so it is taken by value; the order of [range] over it
    is a parameter, as for the sets. *)
Context {V : Type}.
Variable keyOrder : gmap string V → list string.
Hypothesis keyOrder_perm : ∀ m, keyOrder m ≡ₚ elements (dom m).

(** [res := make([]string, len(m)); i := 0;
     for k := range m { res[i] = k; i++ }; return res] *)
Definition InterfaceKeyStrings (m : gmap string V) : option (list string) :=
  assign_each id (keyOrder m) 0 (replicate (size m) EmptyString).

End InterfaceKeys.

End util.

(** ** model.go: the data model *)

(** A parsed JSON text, as [encoding/json] reads it: the members of an object
    in the order of the text, duplicates included. *)
Module json.

Inductive value : Type :=
| Null
| Bool (b : bool)
| Number (literal : string)
| Str (s : string)
| Array (elements : list value)
| Object (members : list (string * value)).

(** Decoding an object into a Go map stores the members in order: a repeated
    key keeps its last value. *)
Definition object_map {A : Type} (f : value → A) (members : list (string * value))
    : gmap string A :=
  foldl (λ m kv, <[kv.1 := f kv.2]> m) ∅ members.

(** How [encoding/json] names the kind of a value in a type error. *)
Definition kind (v : value) : string :=
  match v with
  | Null => "null"
  | Bool _ => "bool"
  | Number _ => "number"
  | Str _ => "string"
  | Array _ => "array"
  | Object _ => "object"
  end.

Definition type_error (v : value) (go_type : string) : string :=
  "json: cannot unmarshal " +:+ kind v +:+ " into Go value of type " +:+ go_type.

(** Decoding into [interface{}] turns every number into a [float64]: it fails
    on a literal that [strconv.ParseFloat] rejects as out of range, and
    reports the first one.  [parses] says which literals are accepted. *)
Fixpoint bad_number (parses : string → bool) (v : value) : option string :=
  match v with
  | Number literal => if parses literal then None else Some literal
  | Array elements =>
      (fix first (l : list value) : option string :=
         match l with
         | [] => None
         | x :: l' =>
             match bad_number parses x with
             | Some literal => Some literal
             | None => first l'
             end
         end) elements
  | Object members =>
      (fix first (l : list (string * value)) : option string :=
         match l with
         | [] => None
         | (_, x) :: l' =>
             match bad_number parses x with
             | Some literal => Some literal
             | None => first l'
             end
         end) members
  | _ => None
  end.

End json.

Module KeyVal.
Record t : Type := mk { Private : string; Public : string }.
End KeyVal.

Module Key.
Record t : Type := mk {
  KeyId : string;
  KeyIdHashAlgorithms : list string;
  KeyType : string;
  KeyVal : KeyVal.t;
  Scheme : string
}.
End Key.

Module Signature.
Record t : Type := mk { KeyId : string; Sig : string }.

#[global] Instance eq_dec : EqDecision t.
Proof. solve_decision. Defined.

(** [Signature{}] *)
Definition zero : t := {| KeyId := ""; Sig := "" |}.
End Signature.

Module Link.
Record t : Type := mk {
  Type_ : string;
  Name : string;
  Materials : gmap string json.value;
  Products : gmap string json.value;
  ByProducts : gmap string json.value;
  Command : list string;
  Environment : gmap string json.value
}.
End Link.

Module SupplyChainItem.
Record t : Type := mk {
  Name : string;
  ExpectedMaterials : list (list string);
  ExpectedProducts : list (list string)
}.
End SupplyChainItem.

Module Inspection.
Record t : Type := mk {
  Type_ : string;
  Run : list string;
  Item : SupplyChainItem.t
}.
End Inspection.

Module Step.
Record t : Type := mk {
  Type_ : string;
  PubKeys : list string;
  ExpectedCommand : list string;
  Threshold : Z;
  Item : SupplyChainItem.t
}.
End Step.

(** An element of the [[]interface{}] that the two methods of [Layout]
    return: nothing (the zero value [make] fills the slice with), a [Step] or
    an [Inspection]. *)
Inductive item : Type :=
| ItemNil
| ItemStep (step : Step.t)
| ItemInspection (inspection : Inspection.t).

Module Layout.
Record t : Type := mk {
  Type_ : string;
  Steps : list Step.t;
  Inspect : list Inspection.t;
  Keys : gmap string Key.t;
  Expires : string;
  Readme : string
}.

(** [stepsI := make([]interface{}, len(l.Steps));
     for i, v := range l.Steps { stepsI[i] = v }; return stepsI] *)
Definition StepsAsInterfaceSlice (l : t) : option (list item) :=
  assign_each ItemStep (Steps l) 0 (replicate (length (Steps l)) ItemNil).

Definition InspectAsInterfaceSlice (l : t) : option (list item) :=
  assign_each ItemInspection (Inspect l) 0 (replicate (length (Inspect l)) ItemNil).
End Layout.

(** The value of the [Signed interface{}] field: nothing, a [Link], a
    [Layout], or a value of another type (which this package never stores). *)
Inductive signed : Type :=
| SignedNil
| SignedLink (link : Link.t)
| SignedLayout (layout : Layout.t)
| SignedOther (v : json.value).

(** Go's [error] values: those this package makes with [fmt.Errorf], and
    those its callees return, which it passes on untouched. *)
Inductive error : Type :=
| Errorf (msg : string)
| Foreign (msg : string).

(** [err.Error()] *)
Definition Error (e : error) : string :=
  match e with
  | Errorf msg => msg
  | Foreign msg => msg
  end.

(** [strings.HasPrefix(s, prefix)] and [strings.Contains(s, substr)] *)
Fixpoint HasPrefix (s prefix : string) : bool :=
  match prefix, s with
  | EmptyString, _ => true
  | String p prefix', String c s' => Ascii.eqb c p && HasPrefix s' prefix'
  | String _ _, EmptyString => false
  end.

Fixpoint Contains (s substr : string) : bool :=
  HasPrefix s substr ||
  match s with
  | EmptyString => false
  | String _ s' => Contains s' substr
  end.

(** The errors of [model.go], by the place that makes them. *)
Definition missing_parts_error : error :=
  Errorf "In-toto metadata requires 'signed' and 'signatures' parts".

Definition unknown_type_error : error :=
  Errorf ("The '_type' field of the 'signed' part of in-toto" +:+
          " metadata must be one of 'link' or 'layout'").

Definition no_signature_error (keyid : string) : error :=
  Errorf ("No signature found for key '" +:+ keyid +:+ "'").

Definition unsupported_error : error :=
  Errorf "This key type or signature scheme is not supported yet!".

Module Metablock.

Record t : Type := mk {
  Signed : signed;
  Signatures : list Signature.t
}.

(** [var rawMb map[string]*json.RawMessage; json.Unmarshal(jsonBytes, &rawMb)]
    on a syntactically valid text: an object fills the map, a member that is
    [null] with a nil pointer; [null] leaves the map nil; any other value is a
    type error. *)
Definition unmarshal_rawMb (v : json.value)
    : gmap string (option json.value) + string :=
  match v with
  | json.Object members =>
      inl (json.object_map
             (λ x, match x with json.Null => None | _ => Some x end) members)
  | json.Null => inl ∅
  | _ => inr (json.type_error v "map[string]*json.RawMessage")
  end.

(** [rawMb[k]]: the nil pointer for a key that is absent. *)
Definition raw (rawMb : gmap string (option json.value)) (k : string)
    : option json.value :=
  mjoin (rawMb !! k).

(** [var signed map[string]interface{}; json.Unmarshal(raw, &signed)]: an
    object fills the map, unless one of its numbers does not fit a
    [float64]. *)
Definition unmarshal_signed_map (parses : string → bool) (v : json.value)
    : gmap string json.value + string :=
  match v with
  | json.Object members =>
      match json.bad_number parses v with
      | None => inl (json.object_map id members)
      | Some literal =>
          inr ("json: cannot unmarshal number " +:+ literal
               +:+ " into Go value of type float64")
      end
  | json.Null => inl ∅
  | _ => inr (json.type_error v "map[string]interface {}")
  end.

(** [signed["_type"] == tag]: the interface value holds a string equal to
    [tag]. *)
Definition type_is (signed : gmap string json.value) (tag : string) : bool :=
  match signed !! "_type" with
  | Some (json.Str s) => bool_decide (s = tag)
  | _ => false
  end.

Section Methods.

(** The file system: [os.Open] followed by [ioutil.ReadAll].  The deferred
    [Close] changes nothing that [Load] returns or stores. *)
Variable File : Type.
Variable os_Open : string → File + string.
Variable ioutil_ReadAll : File → string + string.

(** [encoding/json]: the reading of a text, the number literals that fit a
    [float64], and [json.Unmarshal] of a raw message at the types
    [[]Signature] (into the given slice: the slice it leaves and the error),
    [Link] and [Layout]. *)
Variable json_parse : string → json.value + string.
Variable ParseFloat_ok : string → bool.
Variable unmarshal_Signatures :
  json.value → list Signature.t → list Signature.t * option string.
Variable unmarshal_Link : json.value → Link.t + string.
Variable unmarshal_Layout : json.value → Layout.t + string.

(** The functions of this package that [model.go] calls and that live in
    other files: the canonicalizer, the ed25519 backend and the package-level
    [VerifySignature]. *)
Variable encodeCanonical : signed → string + string.
Variable generateEd25519Signature : string → Key.t → Signature.t * option string.
Variable pkg_VerifySignature : Key.t → Signature.t → string → option string.

Definition Load (path : string) (mb : t) : t * option error :=
  match os_Open path with
  | inr err => (mb, Some (Foreign err))
  | inl jsonFile =>
  match ioutil_ReadAll jsonFile with
  | inr err => (mb, Some (Foreign err))
  | inl jsonBytes =>
  match json_parse jsonBytes with
  | inr err => (mb, Some (Foreign err))
  | inl doc =>
  match unmarshal_rawMb doc with
  | inr err => (mb, Some (Foreign err))
  | inl rawMb =>
  match raw rawMb "signed", raw rawMb "signatures" with
  | Some raw_signed, Some raw_signatures =>
      let '(signatures, err) := unmarshal_Signatures raw_signatures (Signatures mb) in
      let mb := {| Signed := Signed mb; Signatures := signatures |} in
      match err with
      | Some err => (mb, Some (Foreign err))
      | None =>
      match unmarshal_signed_map ParseFloat_ok raw_signed with
      | inr err => (mb, Some (Foreign err))
      | inl signed =>
          if type_is signed "link" then
            match unmarshal_Link raw_signed with
            | inr err => (mb, Some (Foreign err))
            | inl link =>
                ({| Signed := SignedLink link; Signatures := Signatures mb |}, None)
            end
          else if type_is signed "layout" then
            match unmarshal_Layout raw_signed with
            | inr err => (mb, Some (Foreign err))
            | inl layout =>
                ({| Signed := SignedLayout layout; Signatures := Signatures mb |}, None)
            end
          else (mb, Some unknown_type_error)
      end
      end
  | _, _ => (mb, Some missing_parts_error)
  end
  end
  end
  end
  end.

Definition GetSignableRepresentation (mb : t) : string + string :=
  encodeCanonical (Signed mb).

(** The loop of [VerifySignature]: [sig] is set to the first signature of the
    key and the loop left. *)
Fixpoint first_signature (signatures : list Signature.t) (keyid : string)
    (sig : Signature.t) : Signature.t :=
  match signatures with
  | [] => sig
  | s :: signatures' =>
      if bool_decide (Signature.KeyId s = keyid) then s
      else first_signature signatures' keyid sig
  end.

Definition VerifySignature (mb : t) (key : Key.t) : option error :=
  let sig := first_signature (Signatures mb) (Key.KeyId key) Signature.zero in
  if bool_decide (sig = Signature.zero)
  then Some (no_signature_error (Key.KeyId key))
  else
    match GetSignableRepresentation mb with
    | inr err => Some (Foreign err)
    | inl dataCanonical =>
        match pkg_VerifySignature key sig dataCanonical with
        | Some err => Some (Foreign err)
        | None => None
        end
    end.

Definition Sign (mb : t) (key : Key.t) : t * option error :=
  match GetSignableRepresentation mb with
  | inr err => (mb, Some (Foreign err))
  | inl dataCanonical =>
      if bool_decide (Key.KeyType key = "ed25519")
         && bool_decide (Key.Scheme key = "ed25519")
      then
        match generateEd25519Signature dataCanonical key with
        | (_, Some err) => (mb, Some (Foreign err))
        | (newSignature, None) =>
            ({| Signed := Signed mb;
                Signatures := Signatures mb ++ [newSignature] |}, None)
        end
      else (mb, Some unsupported_error)
  end.

End Methods.
End Metablock.

(** * The vocabulary of the statements *)

(** [s.Has(x)] returns true in the world [w] (and leaves it as it is). *)
Definition member (w : world) (s : StringSet) (x : string) : Prop :=
  util.Has s x w = Done true w.

(** What a call leaves of the sets that existed before it. *)
Definition preserved (w w' : world) : Prop :=
  ∀ t, valid w t → contents w' t = contents w t.

(** The result is a map object that did not exist before the call. *)
Definition created (w : world) (res : StringSet) : Prop :=
  ∃ l, res = mapRef l ∧ l ∉ dom (mem w).

(** The call returned a new set and left the operands [s] and [s2], as every
    set that existed, with their members. *)
Definition returns_new_set (w : world) (s s2 : StringSet)
    (o : outcome StringSet) : Prop :=
  ∃ res w', o = Done res w' ∧ created w res ∧ preserved w w' ∧
    ∀ x, (member w' s x ↔ member w s x) ∧ (member w' s2 x ↔ member w s2 x).

(** The outcome of the three receivers that build a set from the elements of
    the receiver that pass a test: a new map at an unused address holding
    [r], the lines [said] written, nothing else changed. *)
Definition builds (w : world) (r : gset string) (said : list string)
    (o : outcome StringSet) : Prop :=
  o = Done (mapRef (fresh (dom (mem w))))
        {| mem := <[fresh (dom (mem w)) := r]> (mem w);
           stdout := stdout w ++ said |}.

(** Whether [Filter] keeps an element, and what it prints for it. *)
Definition passes (pattern elem : string) : bool :=
  match filepath.Match pattern elem with
  | (matched, None) => matched
  | (_, Some _) => false
  end.

Definition warns (pattern elem : string) : list string :=
  match filepath.Match pattern elem with
  | (_, Some err) => [util.warning err pattern]
  | (_, None) => []
  end.

(** A pattern in which none of the characters occurs that [filepath.Match]
    reads as an operator: the star, the question mark, the opening bracket
    and the backslash. *)
Definition operator (c : ascii) : bool :=
  Ascii.eqb c "*" || Ascii.eqb c "?" || Ascii.eqb c "[" || Ascii.eqb c "\".

Fixpoint plain (pattern : string) : bool :=
  match pattern with
  | EmptyString => true
  | String c pattern' => negb (operator c) && plain pattern'
  end.

(** The value of the member [k] of a JSON object, as decoding into a Go map
    sees it: the last one when the name is repeated. *)
Definition field (members : list (string * json.value)) (k : string)
    : option json.value :=
  json.object_map id members !! k.

(** The message of the error names the key id. *)
Definition names (e : error) (keyid : string) : bool := Contains (Error e) keyid.

Definition supported (key : Key.t) : Prop :=
  Key.KeyType key = "ed25519" ∧ Key.Scheme key = "ed25519".

(** Modelled from the spec: [generateEd25519Signature], the ed25519 backend of
    [Sign], is not in [model.go] or [util.go]; the specification says of it
    that "the backend returns a Signature tagged with the key's id". *)
Definition tags_key_id
    (generateEd25519Signature : string → Key.t → Signature.t * option string)
    : Prop :=
  ∀ data key sig, generateEd25519Signature data key = (sig, None) →
    Signature.KeyId sig = Key.KeyId key.

(** * Sample inputs *)

(** Two sets in memory: [{a.txt, b.go, c.go}] and [{b.go, d/e.go}]. *)
Definition sample_world : world :=
  {| mem := {[ 1%positive := {[ "a.txt"; "b.go"; "c.go" ]};
               2%positive := {[ "b.go"; "d/e.go" ]} ]};
     stdout := [] |}.

(** A small file system with its reader and decoders, a canonicalizer and a
    signing backend: stand-ins to run the methods of [Metablock] on. *)
Module sample.

Definition quoted (s : string) : string :=
  String "034"%char s +:+ String "034"%char EmptyString.

(** [{"signed":{"_type":"link"},"signatures":[]}] *)
Definition link_text : string :=
  "{" +:+ quoted "signed" +:+ ":{" +:+ quoted "_type" +:+ ":" +:+ quoted "link"
  +:+ "}," +:+ quoted "signatures" +:+ ":[]}".

Definition link_doc : json.value :=
  json.Object [("signed", json.Object [("_type", json.Str "link")]);
               ("signatures", json.Array [])].

(** [{"signed":{"_type":"layout"},"signatures":[]}] *)
Definition layout_text : string :=
  "{" +:+ quoted "signed" +:+ ":{" +:+ quoted "_type" +:+ ":" +:+ quoted "layout"
  +:+ "}," +:+ quoted "signatures" +:+ ":[]}".

Definition layout_doc : json.value :=
  json.Object [("signed", json.Object [("_type", json.Str "layout")]);
               ("signatures", json.Array [])].

(** [{"signed":{"_type":"bogus"},"signatures":[]}] *)
Definition bogus_text : string :=
  "{" +:+ quoted "signed" +:+ ":{" +:+ quoted "_type" +:+ ":" +:+ quoted "bogus"
  +:+ "}," +:+ quoted "signatures" +:+ ":[]}".

Definition bogus_doc : json.value :=
  json.Object [("signed", json.Object [("_type", json.Str "bogus")]);
               ("signatures", json.Array [])].

(** [{"signed":null,"signatures":[]}] *)
Definition null_text : string :=
  "{" +:+ quoted "signed" +:+ ":null," +:+ quoted "signatures" +:+ ":[]}".

Definition null_doc : json.value :=
  json.Object [("signed", json.Null); ("signatures", json.Array [])].

(** [{"signatures":[]}] *)
Definition unsigned_text : string := "{" +:+ quoted "signatures" +:+ ":[]}".

Definition unsigned_doc : json.value :=
  json.Object [("signatures", json.Array [])].

Definition files : list (string * (string * json.value)) :=
  [("package.2f89b927.link", (link_text, link_doc));
   ("root.layout", (layout_text, layout_doc));
   ("bogus.link", (bogus_text, bogus_doc));
   ("null.link", (null_text, null_doc));
   ("unsigned.link", (unsigned_text, unsigned_doc))].

Definition os_Open (path : string) : string + string :=
  match list_find (λ f, f.1 = path) files with
  | Some (_, (_, (text, _))) => inl text
  | None => inr ("open " +:+ path +:+ ": no such file or directory")
  end.

Definition ioutil_ReadAll (jsonFile : string) : string + string := inl jsonFile.

Definition json_parse (text : string) : json.value + string :=
  match list_find (λ f, f.2.1 = text) files with
  | Some (_, (_, (_, doc))) => inl doc
  | None => inr "invalid character"
  end.

Definition unmarshal_Signatures (v : json.value) (old : list Signature.t)
    : list Signature.t * option string :=
  match v with
  | json.Array [] => ([], None)
  | _ => (old, Some (json.type_error v "[]in_toto.Signature"))
  end.

Definition link : Link.t :=
  {| Link.Type_ := "link"; Link.Name := ""; Link.Materials := ∅;
     Link.Products := ∅; Link.ByProducts := ∅; Link.Command := [];
     Link.Environment := ∅ |}.

Definition layout : Layout.t :=
  {| Layout.Type_ := "layout"; Layout.Steps := []; Layout.Inspect := [];
     Layout.Keys := ∅; Layout.Expires := ""; Layout.Readme := "" |}.

Definition unmarshal_Link (v : json.value) : Link.t + string :=
  match v with
  | json.Object _ => inl link
  | _ => inr (json.type_error v "in_toto.Link")
  end.

Definition unmarshal_Layout (v : json.value) : Layout.t + string :=
  match v with
  | json.Object _ => inl layout
  | _ => inr (json.type_error v "in_toto.Layout")
  end.

Definition encodeCanonical (payload : signed) : string + string :=
  match payload with
  | SignedLink l => inl ("{_type:link,name:" +:+ Link.Name l +:+ "}")
  | SignedLayout l => inl ("{_type:layout,readme:" +:+ Layout.Readme l +:+ "}")
  | SignedNil => inl "null"
  | SignedOther _ => inr "Can't canonicalize"
  end.

Definition generateEd25519Signature (data : string) (key : Key.t)
    : Signature.t * option string :=
  if bool_decide (KeyVal.Private (Key.KeyVal key) = "")
  then (Signature.zero, Some "ed25519: bad seed length: 0")
  else ({| Signature.KeyId := Key.KeyId key;
           Signature.Sig := KeyVal.Private (Key.KeyVal key) +:+ data |}, None).

Definition ed25519_key : Key.t :=
  {| Key.KeyId := "2f89b927"; Key.KeyIdHashAlgorithms := ["sha256"; "sha512"];
     Key.KeyType := "ed25519";
     Key.KeyVal := {| KeyVal.Private := "29ad"; KeyVal.Public := "e8912b58" |};
     Key.Scheme := "ed25519" |}.

Definition rsa_key : Key.t :=
  {| Key.KeyId := "2f89b927"; Key.KeyIdHashAlgorithms := ["sha256"; "sha512"];
     Key.KeyType := "rsa";
     Key.KeyVal := {| KeyVal.Private := ""; KeyVal.Public := "-----BEGIN" |};
     Key.Scheme := "rsassa-pss-sha256" |}.

Definition mb : Metablock.t :=
  {| Metablock.Signed := SignedLink link; Metablock.Signatures := [] |}.

(** Every number literal fits, but the one of a thousand decimal exponents. *)
Definition ParseFloat_ok (literal : string) : bool :=
  negb (bool_decide (literal = "1e999")).

Definition Load := Metablock.Load string os_Open ioutil_ReadAll json_parse
  ParseFloat_ok unmarshal_Signatures unmarshal_Link unmarshal_Layout.

Definition Sign := Metablock.Sign encodeCanonical generateEd25519Signature.

(** The backend accepts the signatures that the sample backend makes with the
    key whose public part is [e8912b58]. *)
Definition pkg_VerifySignature (key : Key.t) (sig : Signature.t) (data : string)
    : option string :=
  if bool_decide (KeyVal.Public (Key.KeyVal key) = "e8912b58")
     && bool_decide (Signature.Sig sig = "29ad" +:+ data)
  then None
  else Some "invalid signature".

Definition VerifySignature :=
  Metablock.VerifySignature encodeCanonical pkg_VerifySignature.

(** Files whose parts have the wrong kind: the text [[]], and
    [{"signed":"link","signatures":[]}]. *)
Definition array_doc : json.value := json.Array [].

Definition text_doc : json.value :=
  json.Object [("signed", json.Str "link"); ("signatures", json.Array [])].

Definition more_files : list (string * json.value) :=
  [("[]", array_doc);
   ("{" +:+ quoted "signed" +:+ ":" +:+ quoted "link" +:+ ","
    +:+ quoted "signatures" +:+ ":[]}", text_doc)].

Definition json_parse_more (text : string) : json.value + string :=
  match list_find (λ f, f.1 = text) more_files with
  | Some (_, (_, doc)) => inl doc
  | None => json_parse text
  end.

Definition os_Open_more (path : string) : string + string :=
  if bool_decide (path = "array.link") then inl "[]"
  else if bool_decide (path = "text.link")
  then inl ("{" +:+ quoted "signed" +:+ ":" +:+ quoted "link" +:+ ","
            +:+ quoted "signatures" +:+ ":[]}")
  else os_Open path.

Definition Load_more := Metablock.Load string os_Open_more ioutil_ReadAll
  json_parse_more ParseFloat_ok unmarshal_Signatures unmarshal_Link
  unmarshal_Layout.

End sample.

(** * Properties of [util.go] *)

Section SubsetCheck.

Lemma subsetCheck_inner_true sub superset :
  util.subsetCheck_inner sub superset = true ↔ sub ∈ superset.
Proof.
  induction superset as [|super superset IH]; simpl.
  - split; [discriminate | intros H; inversion H].
  - case_bool_decide as Heq.
    + subst. split; [intros _; left | reflexivity].
    + rewrite IH, elem_of_cons. intuition congruence.
Qed.

(** C8: [subsetCheck subset superset] is true exactly when every element of
    [subset] occurs in [superset], whatever the order and the repetitions in
    either slice; for the empty [subset] it is true. *)
Theorem subsetCheck_spec (subset superset : list string) :
  (util.subsetCheck subset superset = true ↔ ∀ x, x ∈ subset → x ∈ superset)
  ∧ util.subsetCheck [] superset = true.
Proof.
  split; [|reflexivity].
  induction subset as [|sub subset IH]; simpl.
  - split; [intros _ x Hx; inversion Hx | reflexivity].
  - destruct (util.subsetCheck_inner sub superset) eqn:Hin.
    + apply subsetCheck_inner_true in Hin. rewrite IH. split.
      * intros H x Hx. apply elem_of_cons in Hx as [->|Hx]; auto.
      * intros H x Hx. apply H. now right.
    + split; [discriminate|]. intros H.
      assert (sub ∈ superset) as Hs by (apply H; left).
      apply subsetCheck_inner_true in Hs. congruence.
Qed.

End SubsetCheck.

Section SetLaws.

Variable rangeOrder : gset string → list string.
Hypothesis rangeOrder_perm : ∀ c, rangeOrder c ≡ₚ elements c.

Lemma elem_of_rangeOrder c x : x ∈ rangeOrder c ↔ x ∈ c.
Proof. now rewrite rangeOrder_perm, elem_of_elements. Qed.

Lemma fresh_not_allocated (w : world) : fresh (dom (mem w)) ∉ dom (mem w).
Proof. apply is_fresh. Qed.

Lemma contents_insert_fresh w t r out :
  valid w t →
  contents {| mem := <[fresh (dom (mem w)) := r]> (mem w); stdout := out |} t
  = contents w t.
Proof.
  destruct t as [|l]; [reflexivity|]. intros [c Hc]. simpl in *.
  apply lookup_insert_ne. intros <-.
  apply (fresh_not_allocated w), elem_of_dom. eauto.
Qed.

Lemma builds_created w r said o : builds w r said o → ∃ res w',
  o = Done res w' ∧ created w res ∧ preserved w w' ∧ contents w' res = Some r.
Proof.
  unfold builds. intros ->. eexists _, _. split; [reflexivity|]. split; [|split].
  - eexists. split; [reflexivity|]. apply fresh_not_allocated.
  - intros t Ht. now apply contents_insert_fresh.
  - simpl. apply lookup_insert_eq.
Qed.

(** The loop shared by [Intersection], [Difference] and [Filter]: when each
    turn adds the element to the map at [lres] if it passes [keep], writes
    the lines [say] and changes nothing else, the loop adds the elements of
    the sequence that pass and writes the lines of all of them in order. *)
Lemma forEach_collect (keep : string → bool) (say : string → list string)
    (lres : loc) (m0 : gmap loc (gset string)) (body : string → M unit) :
  (∀ elem c out,
      body elem {| mem := <[lres := c]> m0; stdout := out |}
      = Done () {| mem := <[lres := if keep elem then {[elem]} ∪ c else c]> m0;
                   stdout := out ++ say elem |}) →
  ∀ elems c out,
    forEach elems body {| mem := <[lres := c]> m0; stdout := out |}
    = Done () {| mem := <[lres := list_to_set (filter (λ x, keep x) elems) ∪ c]> m0;
                 stdout := out ++ concat (say <$> elems) |}.
Proof.
  intros Hbody elems. induction elems as [|elem elems IH]; intros c out; simpl.
  - unfold mret, M_ret. rewrite app_nil_r. do 2 f_equal. f_equal. set_solver.
  - unfold mbind, M_bind. rewrite Hbody, IH, <- app_assoc. do 2 f_equal. f_equal.
    rewrite filter_cons. destruct (keep elem); simpl.
    + set_solver.
    + reflexivity.
Qed.

Lemma NewSet_empty w :
  util.NewSet [] w
  = Done (mapRef (fresh (dom (mem w)))) (set_mem (insert (fresh (dom (mem w))) ∅) w).
Proof. reflexivity. Qed.

Lemma Has_insert_other lres c m0 out out' s2 c2 elem :
  contents {| mem := m0; stdout := out' |} s2 = Some c2 →
  lres ∉ dom m0 →
  util.Has s2 elem {| mem := <[lres := c]> m0; stdout := out |}
  = Done (bool_decide (elem ∈ c2)) {| mem := <[lres := c]> m0; stdout := out |}.
Proof.
  intros Hc Hl. unfold util.Has.
  assert (contents {| mem := <[lres := c]> m0; stdout := out |} s2 = Some c2) as ->; [|done].
  destruct s2 as [|l2]; [exact Hc|]. simpl in *.
  rewrite lookup_insert_ne; [done|]. intros ->.
  apply Hl, elem_of_dom. eauto.
Qed.

Lemma Add_insert lres c m0 out elem :
  util.Add (mapRef lres) elem {| mem := <[lres := c]> m0; stdout := out |}
  = Done () {| mem := <[lres := {[elem]} ∪ c]> m0; stdout := out |}.
Proof.
  unfold util.Add, set_mem. simpl. rewrite lookup_insert_eq.
  now rewrite insert_insert_eq.
Qed.

(** The three receivers share their frame: a new empty set, the keys of the
    receiver in the order of [range], and a loop that collects. *)
Lemma collect_builds (keep : string → bool) (say : string → list string)
    (body : StringSet → string → M unit) s w c :
  contents w s = Some c →
  (∀ elem r out,
      body (mapRef (fresh (dom (mem w)))) elem
        {| mem := <[fresh (dom (mem w)) := r]> (mem w); stdout := out |}
      = Done () {| mem := <[fresh (dom (mem w)) :=
                              if keep elem then {[elem]} ∪ r else r]> (mem w);
                   stdout := out ++ say elem |}) →
  builds w (filter (λ x, keep x) c) (concat (say <$> rangeOrder c))
    ((res ← util.NewSet [];
      elems ← util.range rangeOrder s;
      forEach elems (body res);;
      mret res) w).
Proof.
  intros Hc Hbody. unfold builds.
  unfold mbind at 1, M_bind at 1. rewrite NewSet_empty. unfold set_mem.
  unfold mbind at 1, M_bind at 1. unfold util.range.
  rewrite contents_insert_fresh by (unfold valid; rewrite Hc; eauto). rewrite Hc.
  unfold mbind at 1, M_bind at 1.
  rewrite (forEach_collect keep say _ _ _ Hbody).
  unfold mret, M_ret. do 2 f_equal. f_equal.
  apply set_eq. intros x.
  rewrite elem_of_union, elem_of_list_to_set, list_elem_of_filter, elem_of_filter,
    elem_of_rangeOrder.
  set_solver.
Qed.

Lemma concat_nothing {A : Type} (l : list A) :
  concat ((λ _, @nil string) <$> l) = [].
Proof. induction l; simpl; auto. Qed.

Lemma Intersection_builds s s2 w c c2 :
  contents w s = Some c → contents w s2 = Some c2 →
  builds w (c ∩ c2) [] (util.Intersection rangeOrder s s2 w).
Proof.
  intros Hc Hc2.
  assert (filter (λ x, bool_decide (x ∈ c2)) c = c ∩ c2) as <-.
  { apply set_eq. intros x. rewrite elem_of_filter, elem_of_intersection.
    rewrite bool_decide_spec. tauto. }
  rewrite <- (concat_nothing (rangeOrder c)).
  apply (collect_builds (λ x, bool_decide (x ∈ c2)) (λ _, [])
           (λ res elem, b ← util.Has s2 elem;
                        if bool_decide (b = false) then continue
                        else util.Add res elem)); [exact Hc|].
  intros elem r out. unfold mbind, M_bind. rewrite app_nil_r.
  rewrite (Has_insert_other _ _ _ _ (stdout w) s2 c2) by
    (destruct w; try exact Hc2; apply fresh_not_allocated).
  destruct (bool_decide (elem ∈ c2)); simpl.
  - apply Add_insert.
  - reflexivity.
Qed.

Lemma Difference_builds s s2 w c c2 :
  contents w s = Some c → contents w s2 = Some c2 →
  builds w (c ∖ c2) [] (util.Difference rangeOrder s s2 w).
Proof.
  intros Hc Hc2.
  assert (filter (λ x, negb (bool_decide (x ∈ c2))) c = c ∖ c2) as <-.
  { apply set_eq. intros x. rewrite elem_of_filter, elem_of_difference.
    rewrite negb_True, bool_decide_spec. tauto. }
  rewrite <- (concat_nothing (rangeOrder c)).
  apply (collect_builds (λ x, negb (bool_decide (x ∈ c2))) (λ _, [])
           (λ res elem, b ← util.Has s2 elem;
                        if (b : bool) then continue
                        else util.Add res elem)); [exact Hc|].
  intros elem r out. unfold mbind, M_bind. rewrite app_nil_r.
  rewrite (Has_insert_other _ _ _ _ (stdout w) s2 c2) by
    (destruct w; try exact Hc2; apply fresh_not_allocated).
  destruct (bool_decide (elem ∈ c2)); simpl.
  - reflexivity.
  - apply Add_insert.
Qed.

Lemma Filter_builds s pattern w c :
  contents w s = Some c →
  builds w (filter (λ x, passes pattern x) c)
    (concat (warns pattern <$> rangeOrder c))
    (util.Filter rangeOrder s pattern w).
Proof.
  intros Hc.
  apply (collect_builds (passes pattern) (warns pattern)
           (λ res elem,
              let '(matched, err) := filepath.Match pattern elem in
              match err with
              | Some err => Printf (util.warning err pattern);; continue
              | None => if negb matched then continue else util.Add res elem
              end)); [exact Hc|].
  intros elem r out. unfold passes, warns.
  destruct (filepath.Match pattern elem) as [matched [err|]].
  - reflexivity.
  - rewrite app_nil_r. destruct matched; simpl.
    + apply Add_insert.
    + reflexivity.
Qed.

End SetLaws.

Section SetClaims.

Variable rangeOrder : gset string → list string.
Hypothesis rangeOrder_perm : ∀ c, rangeOrder c ≡ₚ elements c.

Lemma member_contents w s c x : contents w s = Some c → (member w s x ↔ x ∈ c).
Proof.
  intros Hc. unfold member, util.Has. rewrite Hc. split.
  - intros H. injection H as H. now apply bool_decide_eq_true in H.
  - intros H. now rewrite bool_decide_true.
Qed.

Lemma member_preserved w w' s x :
  valid w s → preserved w w' → (member w' s x ↔ member w s x).
Proof.
  intros Hv Hp. destruct (Hv) as [c Hc].
  rewrite (member_contents w s c), (member_contents w' s c); [done|idtac|done].
  now rewrite Hp.
Qed.

(** C7: [A.Intersection(B)] returns a set of which [x] is a member exactly
    when it is a member of [A] and of [B] (in the world before the call as in
    the one after it). *)
Theorem Intersection_Has (s s2 : StringSet) (w : world) :
  valid w s → valid w s2 →
  ∃ res w', util.Intersection rangeOrder s s2 w = Done res w' ∧
    ∀ x, (member w' res x ↔ member w s x ∧ member w s2 x)
         ∧ (member w' res x ↔ member w' s x ∧ member w' s2 x).
Proof.
  intros Hs Hs2. destruct (Hs) as [c Hc], (Hs2) as [c2 Hc2].
  destruct (builds_created _ _ _ _ (Intersection_builds rangeOrder rangeOrder_perm
    s s2 w c c2 Hc Hc2)) as (res & w' & Hrun & _ & Hpres & Hres).
  exists res, w'. split; [exact Hrun|]. intros x.
  rewrite (member_preserved w w' s), (member_preserved w w' s2) by assumption.
  rewrite (member_contents _ _ _ _ Hres), (member_contents _ _ _ _ Hc),
    (member_contents _ _ _ _ Hc2), elem_of_intersection.
  tauto.
Qed.

(** C10: [Intersection], [Difference] and [Filter] return a map object that
    did not exist before the call, and leave every set that existed, the
    operands among them, with the members it had. *)
Theorem operands_preserved (s s2 : StringSet) (pattern : string) (w : world) :
  valid w s → valid w s2 →
  returns_new_set w s s2 (util.Intersection rangeOrder s s2 w)
  ∧ returns_new_set w s s2 (util.Difference rangeOrder s s2 w)
  ∧ returns_new_set w s s2 (util.Filter rangeOrder s pattern w).
Proof.
  intros Hs Hs2. destruct (Hs) as [c Hc], (Hs2) as [c2 Hc2].
  assert (∀ o r said, builds w r said o → returns_new_set w s s2 o) as Hnew.
  { intros o r said Hb.
    destruct (builds_created _ _ _ _ Hb) as (res & w' & Hrun & Hnew & Hpres & _).
    exists res, w'. split; [exact Hrun|]. split; [exact Hnew|]. split; [exact Hpres|].
    intros x. split; now apply member_preserved. }
  split; [|split]; eapply Hnew.
  - eapply Intersection_builds; eassumption.
  - eapply Difference_builds; eassumption.
  - eapply Filter_builds; eassumption.
Qed.

Lemma Match_star name :
  filepath.Match "*" name = (negb (filepath.containsByte filepath.Separator name), None).
Proof. reflexivity. Qed.

(** C4, amended: [A.Filter("*")] returns a set holding exactly the elements of
    [A] in which no path separator occurs, and prints nothing; it holds the
    elements of [A] when none of them has a separator. *)
Theorem Filter_star (s : StringSet) (w : world) (c : gset string) :
  contents w s = Some c →
  ∃ res w', util.Filter rangeOrder s "*" w = Done res w' ∧
    stdout w' = stdout w ∧
    (∀ x, member w' res x ↔
          member w s x ∧ filepath.containsByte filepath.Separator x = false) ∧
    ((∀ x, x ∈ c → filepath.containsByte filepath.Separator x = false) →
     contents w' res = Some c).
Proof.
  intros Hc. pose proof (Filter_builds rangeOrder rangeOrder_perm s "*" w c Hc) as Hb.
  assert (concat (warns "*" <$> rangeOrder c) = []) as Hsaid.
  { assert (∀ x, warns "*" x = []) as Hw
      by (intros x; unfold warns; now rewrite Match_star).
    induction (rangeOrder c) as [|e l IH]; [reflexivity|].
    now rewrite fmap_cons, concat_cons, Hw, IH. }
  rewrite Hsaid in Hb.
  destruct (builds_created _ _ _ _ Hb) as (res & w' & Hrun & _ & _ & Hres).
  exists res, w'. split; [exact Hrun|].
  assert (∀ x, passes "*" x ↔ filepath.containsByte filepath.Separator x = false) as Hp.
  { intros x. unfold passes. rewrite Match_star.
    destruct (filepath.containsByte _ x); simpl; intuition congruence. }
  split; [|split].
  - unfold builds in Hb. rewrite Hb in Hrun. injection Hrun as _ <-. simpl.
    apply app_nil_r.
  - intros x.
    rewrite (member_contents _ _ _ _ Hres), (member_contents _ _ _ _ Hc),
      elem_of_filter, Hp.
    tauto.
  - intros Hall. rewrite Hres. f_equal. apply set_eq. intros x.
    rewrite elem_of_filter, Hp. split; [tauto|]. auto.
Qed.

End SetClaims.

(** * [filepath.Match] returns: the bounds on its loops are never reached *)

Section MatchReturns.

Lemma skip_length n s : String.length (skip n s) = String.length s - n.
Proof.
  revert s. induction n as [|n IH]; intros [|c s]; simpl; auto with lia.
Qed.

Lemma DecodeRuneInString_width c s :
  1 ≤ (utf8.DecodeRuneInString (String c s)).2.
Proof.
  unfold utf8.DecodeRuneInString.
  repeat (case_match; simpl; try lia).
Qed.

#[local] Arguments utf8.DecodeRuneInString : simpl never.

Lemma getEsc_shorter chunk r nchunk :
  filepath.getEsc chunk = (r, nchunk, None) →
  String.length nchunk < String.length chunk.
Proof.
  unfold filepath.getEsc. destruct chunk as [|c chunk']; [discriminate|].
  destruct (Ascii.eqb c "-" || Ascii.eqb c "]"); [discriminate|].
  destruct (Ascii.eqb c "\"); simpl.
  - case_bool_decide as Hne; [discriminate|].
    destruct chunk' as [|c' chunk'']; [done|].
    pose proof (DecodeRuneInString_width c' chunk'') as Hn.
    destruct (utf8.DecodeRuneInString (String c' chunk'')) as [r' n]. simpl in Hn.
    intros H. repeat case_match; simplify_eq.
    rewrite skip_length. simpl. lia.
  - pose proof (DecodeRuneInString_width c chunk') as Hn.
    destruct (utf8.DecodeRuneInString (String c chunk')) as [r' n]. simpl in Hn.
    intros H. repeat case_match; simplify_eq.
    rewrite skip_length. simpl. lia.
Qed.

Lemma parseRanges_returns fuel : ∀ chunk r matched nrange,
  String.length chunk < fuel →
  ∃ res, filepath.parseRanges fuel chunk r matched nrange = Some res ∧
    ∀ chunk' matched', res = inr (chunk', matched') →
      String.length chunk' < String.length chunk.
Proof.
  induction fuel as [|fuel IH]; intros chunk r matched nrange Hlen; [lia|].
  assert (∃ res, (match filepath.getEsc chunk with
      | (_, _, Some err) => Some (inl err)
      | (lo, chunk0, None) =>
          match chunk0 with
          | String "-"%char chunk' =>
              match filepath.getEsc chunk' with
              | (_, _, Some err) => Some (inl err)
              | (hi, chunk1, None) =>
                  filepath.parseRanges fuel chunk1 r
                    (if (lo <=? r)%Z && (r <=? hi)%Z then true else matched)
                    (S nrange)
              end
          | _ =>
              filepath.parseRanges fuel chunk0 r
                (if (lo <=? r)%Z && (r <=? lo)%Z then true else matched)
                (S nrange)
          end
      end) = Some res ∧
      ∀ chunk' matched', res = inr (chunk', matched') →
        String.length chunk' < String.length chunk) as Hturn.
  { destruct (filepath.getEsc chunk) as [[lo chunk0] [err|]] eqn:Hesc.
    { eexists. split; [reflexivity|]. discriminate. }
    apply getEsc_shorter in Hesc.
    assert (∀ m, ∃ res, filepath.parseRanges fuel chunk0 r m (S nrange) = Some res ∧
      ∀ chunk' matched', res = inr (chunk', matched') →
        String.length chunk' < String.length chunk) as Hplain.
    { intros m. destruct (IH chunk0 r m (S nrange)) as (res & Hres & Hshort); [lia|].
      exists res. split; [exact Hres|]. intros ? ? ->.
      specialize (Hshort _ _ eq_refl). lia. }
    destruct chunk0 as [|c0 chunk0']; [apply Hplain|].
    destruct (decide (c0 = "-"%char)) as [->|Hc0].
    - destruct (filepath.getEsc chunk0') as [[hi chunk1] [err|]] eqn:Hesc'.
      { eexists. split; [reflexivity|]. discriminate. }
      apply getEsc_shorter in Hesc'. simpl in Hesc.
      destruct (IH chunk1 r (if (lo <=? r)%Z && (r <=? hi)%Z then true else matched)
                  (S nrange)) as (res & Hres & Hshort); [lia|].
      exists res. split; [exact Hres|]. intros ? ? ->.
      specialize (Hshort _ _ eq_refl). lia.
    - destruct (Hplain (if (lo <=? r)%Z && (r <=? lo)%Z then true else matched))
        as (res & Hres & Hshort).
      exists res. split; [|exact Hshort]. rewrite <- Hres.
      destruct c0 as [[] [] [] [] [] [] [] []]; try reflexivity. congruence. }
  simpl. destruct chunk as [|c chunk']; [exact Hturn|].
  destruct nrange as [|nrange].
  - destruct c as [[] [] [] [] [] [] [] []]; exact Hturn.
  - destruct (decide (c = "]"%char)) as [->|Hc].
    + eexists. split; [reflexivity|]. intros ? ? [= <- <-]. simpl. lia.
    + destruct c as [[] [] [] [] [] [] [] []]; try exact Hturn. congruence.
Qed.

Lemma matchChunk_fuel_enough fuel : ∀ chunk s,
  String.length chunk ≤ fuel → is_Some (filepath.matchChunk_fuel fuel chunk s).
Proof.
  induction fuel as [|fuel IH]; intros chunk s Hlen.
  - destruct chunk; [|simpl in Hlen; lia]. simpl. eauto.
  - destruct chunk as [|c chunk']; [simpl; eauto|].
    destruct s as [|s0 s']; [simpl; eauto|].
    simpl in Hlen. cbn [filepath.matchChunk_fuel].
    destruct (Ascii.eqb c "[").
    { destruct (utf8.DecodeRuneInString (String s0 s')) as [r n].
      destruct chunk' as [|c1 chunk'']; [eauto|].
      set (chunk2 := if Ascii.eqb c1 "^" then chunk'' else String c1 chunk'').
      assert (String.length chunk2 ≤ String.length (String c1 chunk'')) as Hlen2
        by (unfold chunk2; destruct (Ascii.eqb c1 "^"); simpl; lia).
      destruct (parseRanges_returns (S (String.length chunk2)) chunk2 r false 0)
        as (res & -> & Hshort); [lia|].
      destruct res as [err|[chunk3 matched]]; [eauto|].
      specialize (Hshort _ _ eq_refl).
      destruct (Bool.eqb matched (Ascii.eqb c1 "^")); [eauto|].
      apply IH. lia. }
    destruct (Ascii.eqb c "?").
    { destruct (Ascii.eqb s0 filepath.Separator); [eauto|].
      destruct (utf8.DecodeRuneInString (String s0 s')) as [r n].
      apply IH. lia. }
    destruct (Ascii.eqb c "\").
    { destruct chunk' as [|c1 chunk'']; [eauto|].
      destruct (negb (Ascii.eqb c1 s0)); [eauto|].
      apply IH. simpl in Hlen. lia. }
    destruct (negb (Ascii.eqb c s0)); [eauto|].
    apply IH. lia.
Qed.

Lemma matchChunk_returns chunk s : is_Some (filepath.matchChunk chunk s).
Proof. now apply matchChunk_fuel_enough. Qed.

Lemma skipLoop_returns chunk last name :
  filepath.skipLoop chunk last name ≠ filepath.Exhausted.
Proof.
  induction name as [|c name IH]; simpl; [done|].
  destruct (Ascii.eqb c filepath.Separator); [done|].
  destruct (matchChunk_returns chunk name) as [[[t ok] err] ->].
  destruct ok; [destruct (last && _); done|].
  destruct err; done.
Qed.

Lemma skipStars_length pattern : ∀ star,
  String.length (filepath.skipStars star pattern).2 ≤ String.length pattern.
Proof.
  induction pattern as [|c pattern IH]; intros star; [simpl; lia|].
  destruct (decide (c = "*"%char)) as [->|Hc].
  - simpl. specialize (IH true). lia.
  - assert (filepath.skipStars star (String c pattern) = (star, String c pattern)) as ->.
    { destruct c as [[] [] [] [] [] [] [] []]; try reflexivity. congruence. }
    simpl. lia.
Qed.

Lemma skipStars_other c pattern star :
  c ≠ "*"%char →
  filepath.skipStars star (String c pattern) = (star, String c pattern).
Proof.
  intros Hc. destruct c as [[] [] [] [] [] [] [] []]; try reflexivity. congruence.
Qed.

Lemma scanIndex_positive c pattern :
  c ≠ "*"%char → 1 ≤ filepath.scanIndex false (String c pattern).
Proof.
  intros Hc. simpl.
  destruct (Ascii.eqb c "\"); [destruct pattern; lia|].
  destruct (Ascii.eqb c "["); [lia|].
  destruct (Ascii.eqb c "]"); [lia|].
  destruct (Ascii.eqb c "*") eqn:Hstar; [|lia].
  now apply Ascii.eqb_eq in Hstar.
Qed.

Lemma scanChunk_shorter c pattern star chunk rest :
  filepath.scanChunk (String c pattern) = (star, chunk, rest) →
  String.length rest < S (String.length pattern).
Proof.
  unfold filepath.scanChunk.
  destruct (decide (c = "*"%char)) as [->|Hc].
  - pose proof (skipStars_length pattern true) as Hlen.
    change (filepath.skipStars false (String "*" pattern))
      with (filepath.skipStars true pattern).
    destruct (filepath.skipStars true pattern) as [star' p1]. simpl in Hlen.
    intros [= <- <- <-]. rewrite skip_length. lia.
  - rewrite skipStars_other by assumption.
    pose proof (scanIndex_positive c pattern Hc) as Hpos.
    revert Hpos. generalize (filepath.scanIndex false (String c pattern)).
    intros i Hpos [= <- <- <-]. rewrite skip_length. simpl. lia.
Qed.

Lemma Match_fuel_enough fuel : ∀ pattern name,
  String.length pattern ≤ fuel → is_Some (filepath.Match_fuel fuel pattern name).
Proof.
  induction fuel as [|fuel IH]; intros pattern name Hlen.
  - destruct pattern; [|simpl in Hlen; lia]. simpl. eauto.
  - destruct pattern as [|c pattern]; [simpl; eauto|].
    simpl in Hlen. cbn [filepath.Match_fuel].
    destruct (filepath.scanChunk (String c pattern)) as [[star chunk] rest] eqn:Hscan.
    apply scanChunk_shorter in Hscan.
    destruct (star && bool_decide (chunk = EmptyString)); [eauto|].
    destruct (matchChunk_returns chunk name) as [[[t ok] err] ->].
    destruct (ok && _); [apply IH; lia|].
    destruct err as [e|]; [eauto|].
    destruct star; [|eauto].
    pose proof (skipLoop_returns chunk (String.length rest =? 0) name) as Hskip.
    destruct (filepath.skipLoop chunk (String.length rest =? 0) name);
      try done; eauto.
    apply IH. lia.
Qed.

(** [Match] is the result of the loop, whatever the pattern and the name. *)
Lemma Match_returns pattern name :
  filepath.Match_fuel (String.length pattern) pattern name
  = Some (filepath.Match pattern name).
Proof.
  unfold filepath.Match.
  destruct (Match_fuel_enough (String.length pattern) pattern name) as [res ->];
    [lia|reflexivity].
Qed.

End MatchReturns.

(** * Properties of [model.go] *)

Section ObjectMap.

Context {A : Type} (f : json.value → A).

Lemma object_map_foldl members : ∀ (m : gmap string A) (m' : gmap string json.value) k,
  m !! k = f <$> (m' !! k) →
  foldl (λ m kv, <[kv.1 := f kv.2]> m) m members !! k
  = f <$> (foldl (λ m kv, <[kv.1 := id kv.2]> m) m' members !! k).
Proof.
  induction members as [|[k' v] members IH]; intros m m' k Hm; simpl; [exact Hm|].
  apply IH. destruct (decide (k' = k)) as [->|Hne].
  - now rewrite !lookup_insert_eq.
  - now rewrite !lookup_insert_ne.
Qed.

Lemma object_map_lookup members k :
  json.object_map f members !! k = f <$> field members k.
Proof. apply object_map_foldl. now rewrite !lookup_empty. Qed.

End ObjectMap.

(** [field] reads the last member of the name. *)
Lemma field_last members k' v k :
  field (members ++ [(k', v)]) k = if decide (k' = k) then Some v else field members k.
Proof.
  unfold field, json.object_map. rewrite foldl_app. simpl.
  case_decide as Hk.
  - subst. apply lookup_insert_eq.
  - now apply lookup_insert_ne.
Qed.

Lemma raw_field members k :
  Metablock.raw (json.object_map
                   (λ x, match x with json.Null => None | _ => Some x end) members) k
  = match field members k with
    | Some json.Null | None => None
    | Some v => Some v
    end.
Proof.
  unfold Metablock.raw. rewrite object_map_lookup.
  destruct (field members k) as [[]|]; reflexivity.
Qed.

Section MetablockClaims.

Variable File : Type.
Variable os_Open : string → File + string.
Variable ioutil_ReadAll : File → string + string.
Variable json_parse : string → json.value + string.
Variable ParseFloat_ok : string → bool.
Variable unmarshal_Signatures :
  json.value → list Signature.t → list Signature.t * option string.
Variable unmarshal_Link : json.value → Link.t + string.
Variable unmarshal_Layout : json.value → Layout.t + string.
Variable encodeCanonical : signed → string + string.
Variable generateEd25519Signature : string → Key.t → Signature.t * option string.
Variable pkg_VerifySignature : Key.t → Signature.t → string → option string.

#[local] Abbreviation Load := (Metablock.Load File os_Open ioutil_ReadAll json_parse
                    ParseFloat_ok unmarshal_Signatures unmarshal_Link unmarshal_Layout).
#[local] Abbreviation Sign := (Metablock.Sign encodeCanonical generateEd25519Signature).
#[local] Abbreviation VerifySignature :=
  (Metablock.VerifySignature encodeCanonical pkg_VerifySignature).

(** C5: when the top-level object of the file has no "signed" member, no
    "signatures" member, or [null] for one of them, [Load] returns the error
    about the missing parts and leaves the Metablock, its [Signed] field
    included, as it was. *)
Theorem Load_missing_parts path mb jsonFile jsonBytes members :
  os_Open path = inl jsonFile →
  ioutil_ReadAll jsonFile = inl jsonBytes →
  json_parse jsonBytes = inl (json.Object members) →
  (field members "signed" = None ∨ field members "signed" = Some json.Null
   ∨ field members "signatures" = None
   ∨ field members "signatures" = Some json.Null) →
  Load path mb = (mb, Some missing_parts_error).
Proof.
  intros Hopen Hread Hparse Hmiss. unfold Metablock.Load.
  rewrite Hopen, Hread, Hparse. cbn [Metablock.unmarshal_rawMb].
  rewrite !raw_field.
  destruct Hmiss as [-> | [-> | [-> | ->]]]; try reflexivity;
    destruct (field members "signed") as [[]|]; reflexivity.
Qed.

(** C2: on a file whose top-level object has a "signed" member that is an
    object (with numbers that fit) and a "signatures" member that decodes,
    [Load] stores a [Link]
    when the "_type" of "signed" is the string "link", a [Layout] when it is
    "layout", the decoded values fitting these types; for any other "_type",
    and for none, it returns the error about the unknown type. *)
Theorem Load_dispatch path mb jsonFile jsonBytes members smembers sv sigs :
  os_Open path = inl jsonFile →
  ioutil_ReadAll jsonFile = inl jsonBytes →
  json_parse jsonBytes = inl (json.Object members) →
  field members "signed" = Some (json.Object smembers) →
  json.bad_number ParseFloat_ok (json.Object smembers) = None →
  field members "signatures" = Some sv → sv ≠ json.Null →
  unmarshal_Signatures sv (Metablock.Signatures mb) = (sigs, None) →
  (field smembers "_type" = Some (json.Str "link") →
   ∀ link, unmarshal_Link (json.Object smembers) = inl link →
     Load path mb
     = ({| Metablock.Signed := SignedLink link; Metablock.Signatures := sigs |}, None))
  ∧ (field smembers "_type" = Some (json.Str "layout") →
     ∀ layout, unmarshal_Layout (json.Object smembers) = inl layout →
       Load path mb
       = ({| Metablock.Signed := SignedLayout layout; Metablock.Signatures := sigs |},
          None))
  ∧ (field smembers "_type" ≠ Some (json.Str "link") →
     field smembers "_type" ≠ Some (json.Str "layout") →
     Load path mb
     = ({| Metablock.Signed := Metablock.Signed mb; Metablock.Signatures := sigs |},
        Some unknown_type_error)).
Proof.
  intros Hopen Hread Hparse Hsigned Hnum Hsigs Hnull Hdec.
  assert (∀ tag, Metablock.type_is (json.object_map id smembers) tag = true
                 ↔ field smembers "_type" = Some (json.Str tag)) as Htag.
  { intros tag. unfold Metablock.type_is, field.
    destruct (json.object_map id smembers !! "_type") as [[]|]; try (split; congruence).
    rewrite bool_decide_eq_true. split; congruence. }
  assert (Load path mb
    = let mb1 := {| Metablock.Signed := Metablock.Signed mb;
                    Metablock.Signatures := sigs |} in
      if Metablock.type_is (json.object_map id smembers) "link" then
        match unmarshal_Link (json.Object smembers) with
        | inr err => (mb1, Some (Foreign err))
        | inl link =>
            ({| Metablock.Signed := SignedLink link;
                Metablock.Signatures := sigs |}, None)
        end
      else if Metablock.type_is (json.object_map id smembers) "layout" then
        match unmarshal_Layout (json.Object smembers) with
        | inr err => (mb1, Some (Foreign err))
        | inl layout =>
            ({| Metablock.Signed := SignedLayout layout;
                Metablock.Signatures := sigs |}, None)
        end
      else (mb1, Some unknown_type_error)) as ->.
  { unfold Metablock.Load.
    rewrite Hopen, Hread, Hparse. cbn [Metablock.unmarshal_rawMb].
    rewrite !raw_field, Hsigned, Hsigs.
    unfold Metablock.unmarshal_signed_map.
    destruct sv; try congruence; rewrite Hdec, Hnum; reflexivity. }
  cbv zeta. split; [|split].
  - intros Ht link Hlink. apply Htag in Ht. now rewrite Ht, Hlink.
  - intros Ht layout Hlayout.
    destruct (Metablock.type_is (json.object_map id smembers) "link") eqn:Hl.
    { apply Htag in Hl. congruence. }
    apply Htag in Ht. now rewrite Ht, Hlayout.
  - intros Hl Hy.
    destruct (Metablock.type_is (json.object_map id smembers) "link") eqn:El.
    { apply Htag in El. congruence. }
    destruct (Metablock.type_is (json.object_map id smembers) "layout") eqn:Ey.
    { apply Htag in Ey. congruence. }
    reflexivity.
Qed.

(** C9: a call of [Sign] that returns an error, whether from the
    canonicalizer, from the backend or for an unsupported key, leaves the
    Metablock as it was: no signature added, [Signed] untouched. *)
Theorem Sign_failure_atomic (mb : Metablock.t) (key : Key.t) :
  (Sign mb key).2 ≠ None → (Sign mb key).1 = mb.
Proof.
  unfold Metablock.Sign, Metablock.GetSignableRepresentation.
  destruct (encodeCanonical (Metablock.Signed mb)) as [dataCanonical|err];
    [|reflexivity].
  destruct (bool_decide (Key.KeyType key = "ed25519")
            && bool_decide (Key.Scheme key = "ed25519")); [|reflexivity].
  destruct (generateEd25519Signature dataCanonical key) as [sig [err|]];
    [reflexivity|].
  simpl. congruence.
Qed.

(** C6: a call of [Sign] that succeeds adds one signature, tagged with the id
    of the key, at the end of [Signatures], and changes nothing else; signing
    once more with the same key adds the same signature a second time. *)
Theorem Sign_appends (mb mb' : Metablock.t) (key : Key.t) :
  tags_key_id generateEd25519Signature →
  Sign mb key = (mb', None) →
  supported key ∧
  ∃ sig, Signature.KeyId sig = Key.KeyId key
    ∧ Metablock.Signed mb' = Metablock.Signed mb
    ∧ Metablock.Signatures mb' = Metablock.Signatures mb ++ [sig]
    ∧ Sign mb' key
      = ({| Metablock.Signed := Metablock.Signed mb;
            Metablock.Signatures := Metablock.Signatures mb ++ [sig; sig] |}, None).
Proof.
  intros Htag. unfold Metablock.Sign, Metablock.GetSignableRepresentation.
  destruct (encodeCanonical (Metablock.Signed mb)) as [dataCanonical|err] eqn:Hcan;
    [|discriminate].
  destruct (bool_decide (Key.KeyType key = "ed25519")
            && bool_decide (Key.Scheme key = "ed25519")) eqn:Hsup; [|discriminate].
  destruct (generateEd25519Signature dataCanonical key) as [sig [err|]] eqn:Hgen;
    [discriminate|].
  intros [= <-]. split.
  { apply andb_true_iff in Hsup as [H1 H2].
    split; [now apply bool_decide_eq_true in H1 | now apply bool_decide_eq_true in H2]. }
  exists sig. split; [now apply (Htag dataCanonical)|].
  split; [reflexivity|]. split; [reflexivity|].
  cbn [Metablock.Signed Metablock.Signatures].
  rewrite Hcan, Hgen. cbn [Metablock.Signed Metablock.Signatures].
  now rewrite <- app_assoc.
Qed.

(** C3, amended: for a key whose type and scheme are not both "ed25519",
    [Sign] fails and leaves the Metablock as it was; the error is the
    canonicalizer's when the canonicalization of [Signed] fails, and
    otherwise the error of the unsupported key, whose message is fixed and
    does not mention the key. *)
Theorem Sign_unsupported (mb : Metablock.t) (key : Key.t) :
  ¬ supported key →
  Sign mb key
  = (mb, Some match encodeCanonical (Metablock.Signed mb) with
              | inr err => Foreign err
              | inl _ => unsupported_error
              end)
  ∧ Error unsupported_error
    = "This key type or signature scheme is not supported yet!".
Proof.
  intros Hsup. split; [|reflexivity].
  unfold Metablock.Sign, Metablock.GetSignableRepresentation.
  destruct (encodeCanonical (Metablock.Signed mb)) as [dataCanonical|err];
    [|reflexivity].
  destruct (bool_decide (Key.KeyType key = "ed25519")
            && bool_decide (Key.Scheme key = "ed25519")) eqn:E; [|reflexivity].
  exfalso. apply Hsup. apply andb_true_iff in E as [H1 H2].
  split; [now apply bool_decide_eq_true in H1 | now apply bool_decide_eq_true in H2].
Qed.

Lemma first_signature_zero signatures keyid :
  Metablock.first_signature signatures keyid Signature.zero = Signature.zero
  ↔ (∀ s, s ∈ signatures → Signature.KeyId s ≠ keyid)
    ∨ (∃ before after, signatures = before ++ Signature.zero :: after
         ∧ keyid = "" ∧ ∀ s, s ∈ before → Signature.KeyId s ≠ keyid).
Proof.
  induction signatures as [|s signatures IH]; simpl.
  - split; [intros _; left; intros s Hs; inversion Hs | reflexivity].
  - case_bool_decide as Hk.
    + split.
      * intros ->. right. exists [], signatures. simpl in Hk.
        repeat split; auto. intros s Hs. inversion Hs.
      * intros [Hnone | (before & after & Heq & -> & Hbefore)].
        { exfalso. apply (Hnone s); [left | exact Hk]. }
        destruct before as [|b before]; simpl in Heq.
        { now injection Heq. }
        injection Heq as -> _. exfalso. apply (Hbefore b); [left | exact Hk].
    + rewrite IH. split.
      * intros [Hnone | (before & after & -> & -> & Hbefore)].
        { left. intros s' Hs'. apply elem_of_cons in Hs' as [->|Hs']; auto. }
        right. exists (s :: before), after. repeat split; auto.
        intros s' Hs'. apply elem_of_cons in Hs' as [->|Hs']; auto.
      * intros [Hnone | (before & after & Heq & -> & Hbefore)].
        { left. intros s' Hs'. apply Hnone. now right. }
        destruct before as [|b before]; simpl in Heq.
        { injection Heq as -> _. now simpl in Hk. }
        injection Heq as -> ->. right. exists before, after. repeat split; auto.
        intros s' Hs'. apply Hbefore. now right.
Qed.

(** When [VerifySignature] reports that there is no signature: no signature
    has the id of the key, or the first that has it is the zero [Signature]
    (which takes a key whose id is empty). *)
Lemma VerifySignature_no_signature (mb : Metablock.t) (key : Key.t) :
  VerifySignature mb key = Some (no_signature_error (Key.KeyId key))
  ↔ (∀ s, s ∈ Metablock.Signatures mb → Signature.KeyId s ≠ Key.KeyId key)
    ∨ (∃ before after,
         Metablock.Signatures mb = before ++ Signature.zero :: after
         ∧ Key.KeyId key = ""
         ∧ ∀ s, s ∈ before → Signature.KeyId s ≠ Key.KeyId key).
Proof.
  rewrite <- first_signature_zero. unfold Metablock.VerifySignature.
  case_bool_decide as Hz; [tauto|].
  split; [|tauto]. intros H. exfalso.
  destruct (Metablock.GetSignableRepresentation encodeCanonical mb); [|discriminate].
  destruct (pkg_VerifySignature _ _ _); discriminate.
Qed.

(** C1, at the input where the code departs from it: a Metablock whose only
    signature has the empty key id and the empty signature, verified with a
    key whose id is empty.  A signature with the id of the key is there, and
    [VerifySignature] reports that none is, whatever [Signed] holds and
    whatever the canonicalizer and the backend do. *)
Theorem VerifySignature_empty_signature (payload : signed) (key : Key.t) :
  let mb := {| Metablock.Signed := payload;
               Metablock.Signatures := [{| Signature.KeyId := ""; Signature.Sig := "" |}] |} in
  let key := {| Key.KeyId := ""; Key.KeyIdHashAlgorithms := Key.KeyIdHashAlgorithms key;
                Key.KeyType := Key.KeyType key; Key.KeyVal := Key.KeyVal key;
                Key.Scheme := Key.Scheme key |} in
  (∃ s, s ∈ Metablock.Signatures mb ∧ Signature.KeyId s = Key.KeyId key)
  ∧ VerifySignature mb key = Some (no_signature_error (Key.KeyId key)).
Proof.
  split; [|reflexivity].
  eexists. split; [left|reflexivity].
Qed.

End MetablockClaims.

(** * The statements on the sample inputs *)

(** The order of [elements] is an order of [range]. *)
Lemma elements_order : ∀ c : gset string, elements c ≡ₚ elements c.
Proof. intros c. reflexivity. Qed.

(** C7 on the sample sets. *)
Lemma Intersection_Has_sample :
  ∃ res w',
    util.Intersection elements (mapRef 1%positive) (mapRef 2%positive) sample_world
    = Done res w' ∧
    ∀ x, (member w' res x ↔
          member sample_world (mapRef 1%positive) x
          ∧ member sample_world (mapRef 2%positive) x)
         ∧ (member w' res x ↔
            member w' (mapRef 1%positive) x ∧ member w' (mapRef 2%positive) x).
Proof.
  apply (Intersection_Has elements elements_order
           (mapRef 1%positive) (mapRef 2%positive) sample_world).
  - eexists. reflexivity.
  - eexists. reflexivity.
Defined.

(** The example of the specification: filtering [{a.txt, b.go, c.go}] with
    [*.go] gives [{b.go, c.go}]. *)
Example Filter_go :
  util.Filter elements (mapRef 1%positive) "*.go" sample_world
  = Done (mapRef 3%positive)
      {| mem := <[3%positive := {[ "b.go"; "c.go" ]}]> (mem sample_world);
         stdout := [] |}.
Proof. vm_compute. reflexivity. Qed.

(** C4, amended, on the first sample set. *)
Lemma Filter_star_sample :
  ∃ res w', util.Filter elements (mapRef 1%positive) "*" sample_world = Done res w' ∧
    stdout w' = stdout sample_world ∧
    (∀ x, member w' res x ↔
          member sample_world (mapRef 1%positive) x
          ∧ filepath.containsByte filepath.Separator x = false) ∧
    ((∀ x, x ∈ ({[ "a.txt"; "b.go"; "c.go" ]} : gset string) →
           filepath.containsByte filepath.Separator x = false) →
     contents w' res = Some {[ "a.txt"; "b.go"; "c.go" ]}).
Proof.
  apply (Filter_star elements elements_order (mapRef 1%positive) sample_world).
  reflexivity.
Defined.

(** C4 as stated fails on a set with a path in it: [{b.go, d/e.go}.Filter("*")]
    is [{b.go}], not the set itself. *)
Lemma Filter_star_drops_paths :
  ∃ res w', util.Filter elements (mapRef 2%positive) "*" sample_world = Done res w' ∧
    contents w' (mapRef 2%positive) = Some {[ "b.go"; "d/e.go" ]} ∧
    contents w' res = Some {[ "b.go" ]} ∧
    contents w' res ≠ contents w' (mapRef 2%positive).
Proof.
  eexists _, _. split; [vm_compute; reflexivity|].
  split; [vm_compute; reflexivity|]. split; [vm_compute; reflexivity|].
  vm_compute. discriminate.
Qed.

(** C10 on the sample sets. *)
Lemma operands_preserved_sample :
  returns_new_set sample_world (mapRef 1%positive) (mapRef 2%positive)
    (util.Intersection elements (mapRef 1%positive) (mapRef 2%positive) sample_world)
  ∧ returns_new_set sample_world (mapRef 1%positive) (mapRef 2%positive)
      (util.Difference elements (mapRef 1%positive) (mapRef 2%positive) sample_world)
  ∧ returns_new_set sample_world (mapRef 1%positive) (mapRef 2%positive)
      (util.Filter elements (mapRef 1%positive) "*.go" sample_world).
Proof.
  apply (operands_preserved elements elements_order).
  - eexists. reflexivity.
  - eexists. reflexivity.
Defined.

(** C5 on the file without a signed part. *)
Lemma Load_missing_parts_sample :
  sample.Load "unsigned.link" sample.mb = (sample.mb, Some missing_parts_error).
Proof.
  apply (Load_missing_parts string sample.os_Open sample.ioutil_ReadAll
           sample.json_parse sample.ParseFloat_ok sample.unmarshal_Signatures
           sample.unmarshal_Link sample.unmarshal_Layout
           "unsigned.link" sample.mb sample.unsigned_text sample.unsigned_text
           [("signatures", json.Array [])]).
  - reflexivity.
  - reflexivity.
  - reflexivity.
  - left. reflexivity.
Defined.

(** C2 on the file of a link. *)
Lemma Load_dispatch_sample :
  sample.Load "package.2f89b927.link" sample.mb
  = ({| Metablock.Signed := SignedLink sample.link; Metablock.Signatures := [] |}, None).
Proof.
  refine (proj1 (Load_dispatch string sample.os_Open sample.ioutil_ReadAll
           sample.json_parse sample.ParseFloat_ok sample.unmarshal_Signatures
           sample.unmarshal_Link sample.unmarshal_Layout
           "package.2f89b927.link" sample.mb sample.link_text sample.link_text
           [("signed", json.Object [("_type", json.Str "link")]);
            ("signatures", json.Array [])]
           [("_type", json.Str "link")] (json.Array []) [] _ _ _ _ _ _ _ _)
          _ sample.link _); try reflexivity.
  discriminate.
Defined.

(** C9 on a key that is not supported. *)
Lemma Sign_failure_atomic_sample :
  (sample.Sign sample.mb sample.rsa_key).2 ≠ None
  ∧ (sample.Sign sample.mb sample.rsa_key).1 = sample.mb.
Proof.
  split.
  - discriminate.
  - apply (Sign_failure_atomic sample.encodeCanonical sample.generateEd25519Signature).
    discriminate.
Defined.

(** The sample backend tags its signatures with the id of the key. *)
Lemma sample_backend_tags : tags_key_id sample.generateEd25519Signature.
Proof.
  intros data key sig. unfold sample.generateEd25519Signature.
  case_bool_decide; [discriminate|]. now intros [= <-].
Defined.

(** C6 on the sample ed25519 key. *)
Lemma Sign_appends_sample :
  supported sample.ed25519_key ∧
  ∃ sig, Signature.KeyId sig = "2f89b927"
    ∧ Metablock.Signed (sample.Sign sample.mb sample.ed25519_key).1 = SignedLink sample.link
    ∧ Metablock.Signatures (sample.Sign sample.mb sample.ed25519_key).1 = [] ++ [sig]
    ∧ sample.Sign (sample.Sign sample.mb sample.ed25519_key).1 sample.ed25519_key
      = ({| Metablock.Signed := SignedLink sample.link;
            Metablock.Signatures := [] ++ [sig; sig] |}, None).
Proof.
  apply (Sign_appends sample.encodeCanonical sample.generateEd25519Signature
           sample.mb (sample.Sign sample.mb sample.ed25519_key).1 sample.ed25519_key).
  - exact sample_backend_tags.
  - reflexivity.
Defined.

(** C3, amended, on the sample RSA key. *)
Lemma Sign_unsupported_sample :
  ¬ supported sample.rsa_key ∧
  sample.Sign sample.mb sample.rsa_key = (sample.mb, Some unsupported_error)
  ∧ Error unsupported_error
    = "This key type or signature scheme is not supported yet!".
Proof.
  assert (¬ supported sample.rsa_key) as Hrsa
    by (intros [H _]; discriminate H).
  split; [exact Hrsa|].
  apply (Sign_unsupported sample.encodeCanonical sample.generateEd25519Signature
           sample.mb sample.rsa_key Hrsa).
Defined.

(** C3 as stated fails whatever the canonicalizer and the backend: for an
    RSA key with the id [2f89b927], the error of [Sign] for an unsupported
    key has a message in which that id does not occur. *)
Lemma Sign_unsupported_message_anonymous :
  (¬ ∃ (encodeCanonical : signed → string + string)
       (generateEd25519Signature : string → Key.t → Signature.t * option string),
       ∀ mb key, ¬ supported key →
         (Metablock.Sign encodeCanonical generateEd25519Signature mb key).2
         = Some unsupported_error
         ∧ names unsupported_error (Key.KeyId key) = true)
  ∧ sample.Sign sample.mb sample.rsa_key = (sample.mb, Some unsupported_error)
  ∧ Key.KeyId sample.rsa_key = "2f89b927"
  ∧ names unsupported_error "2f89b927" = false.
Proof.
  split; [|repeat split].
  intros (enc & gen & Hclaim).
  destruct (Hclaim sample.mb sample.rsa_key) as [_ Hnames].
  - intros [H _]. discriminate H.
  - vm_compute in Hnames. discriminate.
Qed.

(** The examples of the specification. *)

Example subsetCheck_examples :
  util.subsetCheck [] ["sha256"; "sha512"] = true
  ∧ util.subsetCheck ["sha256"] ["sha256"; "sha512"] = true
  ∧ util.subsetCheck ["md5"] ["sha256"] = false
  ∧ util.subsetCheck ["sha512"; "sha256"; "sha512"] ["sha256"; "sha512"] = true.
Proof. repeat split. Qed.

Example Load_layout :
  sample.Load "root.layout" sample.mb
  = ({| Metablock.Signed := SignedLayout sample.layout; Metablock.Signatures := [] |},
     None).
Proof. reflexivity. Qed.

Example Load_fails :
  sample.Load "bogus.link" sample.mb = (sample.mb, Some unknown_type_error)
  ∧ sample.Load "null.link" sample.mb = (sample.mb, Some missing_parts_error)
  ∧ sample.Load "unsigned.link" sample.mb = (sample.mb, Some missing_parts_error)
  ∧ sample.Load "nowhere.link" sample.mb
    = (sample.mb, Some (Foreign "open nowhere.link: no such file or directory")).
Proof. repeat split. Qed.

Example Difference_sample :
  util.Difference elements (mapRef 1%positive) (mapRef 2%positive) sample_world
  = Done (mapRef 3%positive)
      {| mem := <[3%positive := {[ "a.txt"; "c.go" ]}]> (mem sample_world);
         stdout := [] |}.
Proof. vm_compute. reflexivity. Qed.

(** A malformed pattern keeps nothing and prints a warning for each element. *)
Example Filter_bad_pattern :
  util.Filter elements (mapRef 2%positive) "[" sample_world
  = Done (mapRef 3%positive)
      {| mem := <[3%positive := ∅]> (mem sample_world);
         stdout := [util.warning filepath.ErrBadPattern "[";
                    util.warning filepath.ErrBadPattern "["] |}.
Proof. vm_compute. reflexivity. Qed.

(** * Further properties of [util.go] *)

Section SetBasics.

Lemma world_eta (w : world) : {| mem := mem w; stdout := stdout w |} = w.
Proof. now destruct w. Qed.

Lemma member_elem w s c x : contents w s = Some c → (member w s x ↔ x ∈ c).
Proof.
  intros Hc. unfold member, util.Has. rewrite Hc. split.
  - intros H. injection H as H. now apply bool_decide_eq_true in H.
  - intros H. now rewrite bool_decide_true.
Qed.

(** What [builds] says in terms of the result and the world left. *)
Lemma builds_result w r said o :
  builds w r said o →
  ∃ res w', o = Done res w' ∧ created w res ∧ preserved w w'
    ∧ contents w' res = Some r ∧ stdout w' = stdout w ++ said.
Proof.
  unfold builds. intros ->. eexists _, _. split; [reflexivity|].
  split; [|split; [|split]].
  - eexists. split; [reflexivity|]. apply is_fresh.
  - intros t Ht. now apply contents_insert_fresh.
  - simpl. apply lookup_insert_eq.
  - reflexivity.
Qed.

Lemma NewSet_builds elems w : builds w (list_to_set elems) [] (util.NewSet elems w).
Proof.
  unfold builds, util.NewSet.
  unfold mbind at 1, M_bind at 1. unfold make_map, set_mem.
  unfold mbind, M_bind.
  rewrite (forEach_collect elements (λ c, reflexivity (elements c))
             (λ _, true) (λ _, []) (fresh (dom (mem w))) (mem w)
             (λ elem, util.Add (mapRef (fresh (dom (mem w)))) elem)).
  - unfold mret, M_ret. rewrite concat_nothing. do 2 f_equal. f_equal.
    apply set_eq. intros x.
    rewrite elem_of_union, !elem_of_list_to_set, list_elem_of_filter. set_solver.
  - intros elem c out. rewrite app_nil_r. apply Add_insert.
Qed.

(** X1: [NewSet(elems...)] returns a map object that did not exist, whose
    members are exactly the strings passed (a repeated one counts once); it
    prints nothing and leaves every set that existed as it was. *)
Theorem NewSet_members (elems : list string) (w : world) :
  ∃ res w', util.NewSet elems w = Done res w' ∧
    created w res ∧ preserved w w' ∧ stdout w' = stdout w ∧
    ∀ x, member w' res x ↔ x ∈ elems.
Proof.
  destruct (builds_result _ _ _ _ (NewSet_builds elems w))
    as (res & w' & Hrun & Hnew & Hpres & Hres & Hout).
  exists res, w'. rewrite app_nil_r in Hout. repeat (split; [assumption|]).
  intros x. now rewrite (member_elem _ _ _ _ Hres), elem_of_list_to_set.
Qed.

(** X2: [Add] on a live set makes the element a member, keeps the other
    members, touches no other set and prints nothing; adding a string that is
    a member already changes nothing at all. *)
Theorem Add_spec (l : loc) (c : gset string) (elem : string) (w : world) :
  mem w !! l = Some c →
  ∃ w', util.Add (mapRef l) elem w = Done () w' ∧
    stdout w' = stdout w ∧
    (∀ x, member w' (mapRef l) x ↔ x = elem ∨ member w (mapRef l) x) ∧
    (∀ t, t ≠ mapRef l → contents w' t = contents w t) ∧
    (elem ∈ c → w' = w).
Proof.
  intros Hc. unfold util.Add. rewrite Hc. eexists. split; [reflexivity|].
  split; [reflexivity|]. split; [|split].
  - intros x.
    rewrite (member_elem _ (mapRef l) ({[elem]} ∪ c)), (member_elem _ _ c) by
      (simpl; rewrite ?lookup_insert_eq; done).
    set_solver.
  - intros [|l'] Hne; [reflexivity|]. simpl.
    apply lookup_insert_ne. congruence.
  - intros Hin. unfold set_mem.
    replace ({[elem]} ∪ c) with c by set_solver.
    rewrite insert_id by assumption. apply world_eta.
Qed.

(** X3: [Remove] on a set, nil or live, makes the element a non-member, keeps
    the other members and touches no other set; removing a string that is no
    member changes nothing at all. *)
Theorem Remove_spec (s : StringSet) (elem : string) (w : world) :
  valid w s →
  ∃ w', util.Remove s elem w = Done () w' ∧
    stdout w' = stdout w ∧
    (∀ x, member w' s x ↔ x ≠ elem ∧ member w s x) ∧
    (∀ t, t ≠ s → contents w' t = contents w t) ∧
    (¬ member w s elem → w' = w).
Proof.
  intros [c Hc]. destruct s as [|l]; simpl in Hc.
  - exists w. split; [reflexivity|]. split; [reflexivity|]. split; [|split]; auto.
    intros x. rewrite (member_elem w nilMap ∅) by reflexivity. set_solver.
  - unfold util.Remove. rewrite Hc. eexists. split; [reflexivity|].
    split; [reflexivity|]. split; [|split].
    + intros x.
      rewrite (member_elem _ (mapRef l) (c ∖ {[elem]})), (member_elem _ _ c) by
        (simpl; rewrite ?lookup_insert_eq; done).
      set_solver.
    + intros [|l'] Hne; [reflexivity|]. simpl.
      apply lookup_insert_ne. congruence.
    + intros Hnot. rewrite (member_elem _ _ c) in Hnot by exact Hc.
      unfold set_mem. replace (c ∖ {[elem]}) with c by set_solver.
      rewrite insert_id by assumption. apply world_eta.
Qed.

(** X4: adding a string that was no member and removing it again gives the
    world back as it was; so does removing a member and adding it again. *)
Theorem Add_Remove_round_trip (l : loc) (c : gset string) (elem : string) (w : world) :
  mem w !! l = Some c →
  (elem ∉ c → (util.Add (mapRef l) elem;; util.Remove (mapRef l) elem) w = Done () w)
  ∧ (elem ∈ c → (util.Remove (mapRef l) elem;; util.Add (mapRef l) elem) w = Done () w).
Proof.
  intros Hc. split; intros He; unfold mbind, M_bind, util.Add, util.Remove, set_mem;
    rewrite Hc; simpl; rewrite lookup_insert_eq, insert_insert_eq; f_equal.
  - replace (({[elem]} ∪ c) ∖ {[elem]}) with c by set_solver.
    rewrite insert_id by assumption. apply world_eta.
  - replace ({[elem]} ∪ c ∖ {[elem]}) with c.
    + rewrite insert_id by assumption. apply world_eta.
    + apply set_eq. intros x. rewrite elem_of_union, elem_of_difference, elem_of_singleton.
      destruct (decide (x = elem)); subst; tauto.
Qed.

End SetBasics.

Section SetAlgebra.

Variable rangeOrder : gset string → list string.
Hypothesis rangeOrder_perm : ∀ c, rangeOrder c ≡ₚ elements c.

Lemma rangeOrder_empty : rangeOrder ∅ = [].
Proof.
  apply Permutation_nil. symmetry. rewrite rangeOrder_perm.
  now rewrite elements_empty.
Qed.

Lemma rangeOrder_elem c x : x ∈ rangeOrder c ↔ x ∈ c.
Proof. now rewrite rangeOrder_perm, elem_of_elements. Qed.

Lemma rangeOrder_NoDup c : NoDup (rangeOrder c).
Proof. rewrite rangeOrder_perm. apply NoDup_elements. Qed.

Lemma Slice_range s w c :
  contents w s = Some c → util.Slice rangeOrder s w = Done (rangeOrder c) w.
Proof.
  intros Hc. unfold util.Slice, mbind, M_bind, util.range. rewrite Hc.
  unfold mret, M_ret. f_equal.
  assert (∀ (l acc : list string),
            foldl (λ (res : list string) (elem : string), res ++ [elem]) acc l
            = acc ++ l) as Happ.
  { induction l as [|e l IH]; intros acc; simpl; [now rewrite app_nil_r|].
    now rewrite IH, <- app_assoc. }
  apply Happ.
Qed.

(** X5: the nil set behaves as the empty set for reading and panics on
    writing: [Has] is false, [Remove] does nothing, [Slice] is empty,
    [Intersection], [Difference] and [Filter] of it return a new empty set
    whatever their argument, and [Add] panics. *)
Theorem nil_set (elem pattern : string) (s2 : StringSet) (w : world) :
  util.Has nilMap elem w = Done false w
  ∧ util.Remove nilMap elem w = Done () w
  ∧ util.Slice rangeOrder nilMap w = Done [] w
  ∧ builds w ∅ [] (util.Intersection rangeOrder nilMap s2 w)
  ∧ builds w ∅ [] (util.Difference rangeOrder nilMap s2 w)
  ∧ builds w ∅ [] (util.Filter rangeOrder nilMap pattern w)
  ∧ util.Add nilMap elem w = Panic nil_map_assignment.
Proof.
  assert (∀ body : string → M (),
    builds w ∅ []
      ((res ← util.NewSet [];
        elems ← util.range rangeOrder nilMap;
        forEach elems body;;
        mret res) w)) as Hloop.
  { intros body. unfold builds, mbind, M_bind, util.range. simpl.
    rewrite rangeOrder_empty. simpl. unfold mret, M_ret, set_mem. simpl.
    now rewrite app_nil_r. }
  split; [reflexivity|]. split; [reflexivity|].
  split; [rewrite (Slice_range nilMap w ∅) by reflexivity; now rewrite rangeOrder_empty|].
  split; [apply Hloop|]. split; [apply Hloop|]. split; [apply Hloop|reflexivity].
Qed.

(** X6: [A.Difference(B)] returns a set of which [x] is a member exactly when
    it is a member of [A] and not of [B]; the result and [B] share no
    member. *)
Theorem Difference_Has (s s2 : StringSet) (w : world) :
  valid w s → valid w s2 →
  ∃ res w', util.Difference rangeOrder s s2 w = Done res w' ∧
    ∀ x, (member w' res x ↔ member w s x ∧ ¬ member w s2 x)
         ∧ ¬ (member w' res x ∧ member w' s2 x).
Proof.
  intros Hs Hs2. destruct (Hs) as [c Hc], (Hs2) as [c2 Hc2].
  destruct (builds_result _ _ _ _ (Difference_builds rangeOrder rangeOrder_perm
    s s2 w c c2 Hc Hc2)) as (res & w' & Hrun & _ & Hpres & Hres & _).
  exists res, w'. split; [exact Hrun|]. intros x.
  assert (contents w' s2 = Some c2) as Hc2' by (now rewrite Hpres).
  rewrite (member_elem _ _ _ _ Hres), (member_elem _ _ _ _ Hc),
    (member_elem _ _ _ _ Hc2), (member_elem _ _ _ _ Hc2').
  set_solver.
Qed.

(** X7: the sets that [A.Intersection(B)] and [B.Intersection(A)] return have
    the same members. *)
Theorem Intersection_comm (s s2 : StringSet) (w : world) :
  valid w s → valid w s2 →
  ∃ res w' res2 w2,
    util.Intersection rangeOrder s s2 w = Done res w'
    ∧ util.Intersection rangeOrder s2 s w = Done res2 w2
    ∧ ∀ x, member w' res x ↔ member w2 res2 x.
Proof.
  intros [c Hc] [c2 Hc2].
  destruct (builds_result _ _ _ _ (Intersection_builds rangeOrder rangeOrder_perm
    s s2 w c c2 Hc Hc2)) as (res & w' & Hrun & _ & _ & Hres & _).
  destruct (builds_result _ _ _ _ (Intersection_builds rangeOrder rangeOrder_perm
    s2 s w c2 c Hc2 Hc)) as (res2 & w2 & Hrun2 & _ & _ & Hres2 & _).
  exists res, w', res2, w2. repeat (split; [assumption|]). intros x.
  rewrite (member_elem _ _ _ _ Hres), (member_elem _ _ _ _ Hres2). set_solver.
Qed.

(** X8: [A.Intersection(B)] followed by [A.Difference(B)] gives two distinct
    sets that split [A]: every member of [A] is a member of exactly one of
    them, and they have no other member. *)
Theorem Intersection_Difference_split (s s2 : StringSet) (w : world) :
  valid w s → valid w s2 →
  ∃ both w1 only w2,
    util.Intersection rangeOrder s s2 w = Done both w1
    ∧ util.Difference rangeOrder s s2 w1 = Done only w2
    ∧ both ≠ only
    ∧ ∀ x, (member w2 s x ↔ member w2 both x ∨ member w2 only x)
           ∧ ¬ (member w2 both x ∧ member w2 only x).
Proof.
  intros Hs Hs2. destruct (Hs) as [c Hc], (Hs2) as [c2 Hc2].
  destruct (builds_result _ _ _ _ (Intersection_builds rangeOrder rangeOrder_perm
    s s2 w c c2 Hc Hc2)) as (both & w1 & Hrun & _ & Hpres & Hboth & _).
  assert (contents w1 s = Some c) as Hc1 by (now rewrite Hpres).
  assert (contents w1 s2 = Some c2) as Hc21 by (now rewrite Hpres).
  destruct (builds_result _ _ _ _ (Difference_builds rangeOrder rangeOrder_perm
    s s2 w1 c c2 Hc1 Hc21)) as (only & w2 & Hrun2 & Hnew & Hpres2 & Honly & _).
  exists both, w1, only, w2. split; [exact Hrun|]. split; [exact Hrun2|].
  assert (valid w1 both) as Hvb by (unfold valid; rewrite Hboth; eauto).
  split.
  - intros ->. destruct Hnew as (l & -> & Hl). apply Hl.
    simpl in Hboth. apply elem_of_dom. eauto.
  - intros x.
    assert (contents w2 s = Some c) as Hc2s
      by (rewrite Hpres2; [exact Hc1 | unfold valid; rewrite Hc1; eauto]).
    assert (contents w2 both = Some (c ∩ c2)) as Hb2 by (now rewrite Hpres2).
    rewrite (member_elem _ _ _ _ Hc2s), (member_elem _ _ _ _ Hb2),
      (member_elem _ _ _ _ Honly).
    rewrite elem_of_intersection, elem_of_difference.
    destruct (decide (x ∈ c2)); tauto.
Qed.

(** X9: with itself or the nil set as argument: [A.Intersection(A)] and
    [A.Difference(nil)] are new sets with the members of [A] (copies: a set
    of their own), [A.Difference(A)] and [A.Intersection(nil)] are new empty
    sets. *)
Theorem copies_and_empties (s : StringSet) (c : gset string) (w : world) :
  contents w s = Some c →
  builds w c [] (util.Intersection rangeOrder s s w)
  ∧ builds w c [] (util.Difference rangeOrder s nilMap w)
  ∧ builds w ∅ [] (util.Difference rangeOrder s s w)
  ∧ builds w ∅ [] (util.Intersection rangeOrder s nilMap w).
Proof.
  intros Hc.
  pose proof (Intersection_builds rangeOrder rangeOrder_perm s s w c c Hc Hc) as H1.
  pose proof (Difference_builds rangeOrder rangeOrder_perm s nilMap w c ∅ Hc eq_refl)
    as H2.
  pose proof (Difference_builds rangeOrder rangeOrder_perm s s w c c Hc Hc) as H3.
  pose proof (Intersection_builds rangeOrder rangeOrder_perm s nilMap w c ∅ Hc eq_refl)
    as H4.
  replace (c ∩ c) with c in H1 by set_solver.
  replace (c ∖ ∅) with c in H2 by set_solver.
  replace (c ∖ c) with (∅ : gset string) in H3 by set_solver.
  replace (c ∩ ∅) with (∅ : gset string) in H4 by set_solver.
  auto.
Qed.

End SetAlgebra.

(** ** [filepath.Match] on a pattern without operators is string equality *)

Section MatchPlain.

Lemma plain_cons c pattern :
  plain (String c pattern) = true →
  Ascii.eqb c "*" = false ∧ Ascii.eqb c "?" = false ∧ Ascii.eqb c "[" = false
  ∧ Ascii.eqb c "\" = false ∧ plain pattern = true.
Proof.
  simpl. unfold operator. intros H.
  apply andb_true_iff in H as [H Hp]. apply negb_true_iff in H.
  repeat (apply orb_false_iff in H as [H ?]). auto.
Qed.

Lemma scanIndex_plain pattern : ∀ inrange,
  plain pattern = true → filepath.scanIndex inrange pattern = String.length pattern.
Proof.
  induction pattern as [|c pattern IH]; intros inrange Hp; [reflexivity|].
  apply plain_cons in Hp as (Hstar & _ & Hopen & Hesc & Hp).
  simpl. rewrite Hesc, Hopen, Hstar.
  destruct (Ascii.eqb c "]"); now rewrite IH.
Qed.

Lemma upto_all s : upto (String.length s) s = s.
Proof. induction s; simpl; congruence. Qed.

Lemma skip_all s : skip (String.length s) s = EmptyString.
Proof. induction s; simpl; congruence. Qed.

Lemma scanChunk_plain pattern :
  plain pattern = true → filepath.scanChunk pattern = (false, pattern, EmptyString).
Proof.
  intros Hp. unfold filepath.scanChunk.
  assert (filepath.skipStars false pattern = (false, pattern)) as ->.
  { destruct pattern as [|c pattern]; [reflexivity|].
    apply plain_cons in Hp as (Hstar & _). apply skipStars_other.
    intros ->. discriminate Hstar. }
  now rewrite scanIndex_plain, upto_all, skip_all.
Qed.

Lemma matchChunk_fuel_plain pattern : ∀ name fuel,
  plain pattern = true → String.length pattern ≤ fuel →
  filepath.matchChunk_fuel fuel pattern name
  = Some (if HasPrefix name pattern
          then (skip (String.length pattern) name, true, None)
          else (EmptyString, false, None)).
Proof.
  induction pattern as [|c pattern IH]; intros name fuel Hp Hfuel.
  - destruct fuel, name; reflexivity.
  - destruct name as [|s0 s']; [destruct fuel; reflexivity|].
    destruct fuel as [|fuel]; [simpl in Hfuel; lia|].
    apply plain_cons in Hp as (_ & Hq & Hopen & Hesc & Hp).
    cbn [filepath.matchChunk_fuel HasPrefix]. rewrite Hopen, Hq, Hesc.
    rewrite (Ascii.eqb_sym s0 c).
    destruct (Ascii.eqb c s0); [|reflexivity].
    simpl in Hfuel. rewrite IH by (assumption || lia). reflexivity.
Qed.

Lemma HasPrefix_all pattern : ∀ name,
  HasPrefix name pattern = true
  ∧ String.length (skip (String.length pattern) name) = 0
  ↔ name = pattern.
Proof.
  induction pattern as [|c pattern IH]; intros [|s0 s']; simpl.
  - split; auto.
  - split; [intros [_ H]; discriminate H | discriminate].
  - split; [intros [H _]; discriminate H | discriminate].
  - rewrite andb_true_iff, Ascii.eqb_eq. split.
    + intros [[-> Hpre] Hlen]. f_equal. apply IH. auto.
    + intros [= -> Heq]. apply IH in Heq as [Hpre Hlen]. auto.
Qed.

Lemma Match_plain pattern name :
  plain pattern = true →
  filepath.Match pattern name = (bool_decide (name = pattern), None).
Proof.
  intros Hp. unfold filepath.Match.
  destruct pattern as [|c pattern].
  - simpl. f_equal. destruct name; reflexivity.
  - cbn [String.length filepath.Match_fuel].
    rewrite (scanChunk_plain _ Hp). cbn [andb].
    unfold filepath.matchChunk. rewrite matchChunk_fuel_plain by (assumption || lia).
    pose proof (HasPrefix_all (String c pattern) name) as Hall.
    destruct (HasPrefix name (String c pattern)).
    + destruct (skip (String.length (String c pattern)) name) as [|a t] eqn:Ht.
      * rewrite bool_decide_true by (apply Hall; auto).
        simpl. destruct (String.length pattern); reflexivity.
      * rewrite bool_decide_false; [reflexivity|].
        intros Heq. apply Hall in Heq as [_ Heq]. discriminate Heq.
    + simpl. rewrite bool_decide_false; [reflexivity|].
      intros Heq. apply Hall in Heq as [Heq _]. discriminate.
Qed.

End MatchPlain.

Section FilterMore.

Variable rangeOrder : gset string → list string.
Hypothesis rangeOrder_perm : ∀ c, rangeOrder c ≡ₚ elements c.

Lemma passes_Match pattern x :
  passes pattern x ↔ filepath.Match pattern x = (true, None).
Proof.
  unfold passes. destruct (filepath.Match pattern x) as [[] [err|]]; simpl;
    split; (done || discriminate).
Qed.

(** X10: [A.Filter(pattern)] returns a new set whose members are the members
    of [A] that [filepath.Match] accepts without error (never a string that
    is not in [A]); for each element on which the match fails with an error
    it prints one warning, in the order of the iteration, and nothing else;
    the sets that existed keep their members. *)
Theorem Filter_spec (s : StringSet) (pattern : string) (c : gset string) (w : world) :
  contents w s = Some c →
  ∃ res w', util.Filter rangeOrder s pattern w = Done res w' ∧
    created w res ∧ preserved w w' ∧
    (∀ x, member w' res x ↔
          member w s x ∧ filepath.Match pattern x = (true, None)) ∧
    stdout w' = stdout w ++ concat (warns pattern <$> rangeOrder c).
Proof.
  intros Hc.
  destruct (builds_result _ _ _ _ (Filter_builds rangeOrder rangeOrder_perm
    s pattern w c Hc)) as (res & w' & Hrun & Hnew & Hpres & Hres & Hout).
  exists res, w'. repeat (split; [assumption|]). split; [|exact Hout].
  intros x.
  rewrite (member_elem _ _ _ _ Hres), (member_elem _ _ _ _ Hc), elem_of_filter,
    passes_Match.
  tauto.
Qed.

(** X11: with a pattern in which no operator of the glob syntax occurs,
    [Filter] is a membership test: the set it returns holds the pattern
    itself if that is a member of [A], and nothing else; no warning is
    printed. *)
Theorem Filter_plain (s : StringSet) (pattern : string) (c : gset string) (w : world) :
  plain pattern = true →
  contents w s = Some c →
  ∃ res w', util.Filter rangeOrder s pattern w = Done res w' ∧
    stdout w' = stdout w ∧
    ∀ x, member w' res x ↔ x = pattern ∧ member w s x.
Proof.
  intros Hplain Hc.
  destruct (builds_result _ _ _ _ (Filter_builds rangeOrder rangeOrder_perm
    s pattern w c Hc)) as (res & w' & Hrun & _ & _ & Hres & Hout).
  exists res, w'. split; [exact Hrun|]. split.
  - rewrite Hout.
    assert (∀ l : list string, concat (warns pattern <$> l) = []) as ->.
    { induction l as [|e l IH]; [reflexivity|].
      rewrite fmap_cons, concat_cons, IH. unfold warns.
      now rewrite (Match_plain _ _ Hplain). }
    apply app_nil_r.
  - intros x.
    rewrite (member_elem _ _ _ _ Hres), (member_elem _ _ _ _ Hc), elem_of_filter,
      passes_Match, (Match_plain _ _ Hplain).
    split.
    + intros [Heq Hin]. injection Heq as Heq. apply bool_decide_eq_true in Heq. auto.
    + intros [-> Hin]. now rewrite bool_decide_true.
Qed.

(** X12: filtering the result of [Filter] again with the same pattern gives
    another new set with the same members. *)
Theorem Filter_again (s : StringSet) (pattern : string) (w : world) :
  valid w s →
  ∃ res w' res2 w2,
    util.Filter rangeOrder s pattern w = Done res w'
    ∧ util.Filter rangeOrder res pattern w' = Done res2 w2
    ∧ res2 ≠ res
    ∧ ∀ x, member w2 res2 x ↔ member w2 res x.
Proof.
  intros [c Hc].
  destruct (builds_result _ _ _ _ (Filter_builds rangeOrder rangeOrder_perm
    s pattern w c Hc)) as (res & w' & Hrun & _ & _ & Hres & _).
  destruct (builds_result _ _ _ _ (Filter_builds rangeOrder rangeOrder_perm
    res pattern w' _ Hres)) as (res2 & w2 & Hrun2 & Hnew & Hpres & Hres2 & _).
  exists res, w', res2, w2. split; [exact Hrun|]. split; [exact Hrun2|].
  assert (valid w' res) as Hv by (unfold valid; rewrite Hres; eauto).
  split.
  - intros ->. destruct Hnew as (l & -> & Hl). apply Hl.
    simpl in Hres. apply elem_of_dom. eauto.
  - intros x.
    assert (contents w2 res = Some (filter (λ x, passes pattern x) c)) as Hres'
      by (now rewrite Hpres).
    rewrite (member_elem _ _ _ _ Hres2), (member_elem _ _ _ _ Hres'), !elem_of_filter.
    tauto.
Qed.

(** X13: [Slice] returns every member of the set exactly once, in some
    order, and nothing else; it changes nothing. *)
Theorem Slice_spec (s : StringSet) (c : gset string) (w : world) :
  contents w s = Some c →
  ∃ l, util.Slice rangeOrder s w = Done l w ∧
    NoDup l ∧ length l = size c ∧ ∀ x, x ∈ l ↔ member w s x.
Proof.
  intros Hc. exists (rangeOrder c). split; [now apply Slice_range|].
  split; [now apply rangeOrder_NoDup|]. split.
  - rewrite rangeOrder_perm. reflexivity.
  - intros x. rewrite (member_elem _ _ _ _ Hc). now apply rangeOrder_elem.
Qed.

(** X14: building a set from the slice of a set gives a new set with the
    same members: [NewSet(A.Slice()...)] is a copy of [A]. *)
Theorem NewSet_Slice (s : StringSet) (w : world) :
  valid w s →
  ∃ l res w', util.Slice rangeOrder s w = Done l w
    ∧ util.NewSet l w = Done res w'
    ∧ created w res
    ∧ ∀ x, (member w' res x ↔ member w s x) ∧ (member w' s x ↔ member w s x).
Proof.
  intros Hs. destruct (Hs) as [c Hc].
  destruct (builds_result _ _ _ _ (NewSet_builds (rangeOrder c) w))
    as (res & w' & Hrun & Hnew & Hpres & Hres & _).
  exists (rangeOrder c), res, w'. split; [now apply Slice_range|].
  split; [exact Hrun|]. split; [exact Hnew|]. intros x.
  assert (contents w' s = Some c) as Hc' by (now rewrite Hpres).
  rewrite (member_elem _ _ _ _ Hres), (member_elem _ _ _ _ Hc),
    (member_elem _ _ _ _ Hc'), elem_of_list_to_set.
  split; [now apply rangeOrder_elem | reflexivity].
Qed.

Lemma subsetCheck_all subset superset :
  util.subsetCheck subset superset = true ↔ ∀ x, x ∈ subset → x ∈ superset.
Proof.
  induction subset as [|sub subset IH]; simpl.
  - split; [intros _ x Hx; inversion Hx | reflexivity].
  - destruct (util.subsetCheck_inner sub superset) eqn:Hin.
    + apply subsetCheck_inner_true in Hin. rewrite IH. split.
      * intros H x Hx. apply elem_of_cons in Hx as [->|Hx]; auto.
      * intros H x Hx. apply H. now right.
    + split; [discriminate|]. intros H.
      assert (sub ∈ superset) as Hs by (apply H; left).
      apply subsetCheck_inner_true in Hs. congruence.
Qed.

(** X16: [subsetCheck] is a preorder on slices that sees them as sets: every
    slice is a subset of itself, the relation is transitive, and a
    concatenation is a subset exactly when both parts are. *)
Theorem subsetCheck_preorder (a b c : list string) :
  util.subsetCheck a a = true
  ∧ (util.subsetCheck a b = true → util.subsetCheck b c = true →
     util.subsetCheck a c = true)
  ∧ util.subsetCheck (a ++ b) c = util.subsetCheck a c && util.subsetCheck b c.
Proof.
  split; [|split].
  - apply subsetCheck_all. auto.
  - rewrite !subsetCheck_all. auto.
  - apply eq_true_iff_eq. rewrite andb_true_iff, !subsetCheck_all.
    setoid_rewrite elem_of_app. firstorder.
Qed.

(** X17: [subsetCheck(a, b)] answers whether the set of [a] less the set of
    [b] is empty: it is true exactly when
    [NewSet(a...).Difference(NewSet(b...))] has no member. *)
Theorem subsetCheck_Difference (a b : list string) (w : world) :
  ∃ sa w1 sb w2 d w3,
    util.NewSet a w = Done sa w1
    ∧ util.NewSet b w1 = Done sb w2
    ∧ util.Difference rangeOrder sa sb w2 = Done d w3
    ∧ (util.subsetCheck a b = true ↔ ∀ x, ¬ member w3 d x).
Proof.
  destruct (builds_result _ _ _ _ (NewSet_builds a w))
    as (sa & w1 & Hrun1 & _ & _ & Hsa & _).
  destruct (builds_result _ _ _ _ (NewSet_builds b w1))
    as (sb & w2 & Hrun2 & _ & Hpres2 & Hsb & _).
  assert (contents w2 sa = Some (list_to_set a)) as Hsa2
    by (rewrite Hpres2; [exact Hsa | unfold valid; rewrite Hsa; eauto]).
  destruct (builds_result _ _ _ _ (Difference_builds rangeOrder rangeOrder_perm
    sa sb w2 _ _ Hsa2 Hsb)) as (d & w3 & Hrun3 & _ & _ & Hd & _).
  exists sa, w1, sb, w2, d, w3. repeat (split; [assumption|]).
  rewrite subsetCheck_all.
  setoid_rewrite (member_elem _ _ _ _ Hd).
  setoid_rewrite elem_of_difference. setoid_rewrite elem_of_list_to_set.
  split.
  - intros H x [Hx Hnx]. auto.
  - intros H x Hx. destruct (decide (x ∈ b)) as [|Hnx]; [assumption|].
    exfalso. apply (H x). auto.
Qed.

End FilterMore.

Section IndexedStores.

Lemma assign_each_fills {A B : Type} (f : A → B) (xs : list A) :
  ∀ (done rest : list B), length xs ≤ length rest →
    assign_each f xs (length done) (done ++ rest)
    = Some (done ++ (f <$> xs) ++ drop (length xs) rest).
Proof.
  induction xs as [|x xs IH]; intros done rest Hlen; simpl.
  - now rewrite drop_0.
  - destruct rest as [|r rest]; [simpl in Hlen; lia|].
    rewrite decide_True by (rewrite length_app; simpl; lia).
    replace (<[length done := f x]> (done ++ r :: rest))
      with ((done ++ [f x]) ++ rest).
    + replace (S (length done)) with (length (done ++ [f x]))
        by (rewrite length_app; simpl; lia).
      rewrite IH by (simpl in Hlen; lia).
      now rewrite <- app_assoc.
    + rewrite <- app_assoc, insert_app_r_alt by lia.
      now rewrite Nat.sub_diag.
Qed.

Lemma assign_each_all {A B : Type} (f : A → B) (xs : list A) (zero : B) :
  assign_each f xs 0 (replicate (length xs) zero) = Some (f <$> xs).
Proof.
  pose proof (assign_each_fills f xs [] (replicate (length xs) zero)) as H.
  simpl in H. rewrite H by (now rewrite length_replicate).
  rewrite drop_ge by (now rewrite length_replicate).
  now rewrite app_nil_r.
Qed.

(** X15: [InterfaceKeyStrings] never indexes outside the slice it made, and
    returns every key of the map exactly once. *)
Theorem InterfaceKeyStrings_spec {V : Type}
    (keyOrder : gmap string V → list string) (m : gmap string V) :
  (∀ m', keyOrder m' ≡ₚ elements (dom m')) →
  ∃ res, util.InterfaceKeyStrings keyOrder m = Some res ∧
    NoDup res ∧ length res = size m ∧ ∀ k, k ∈ res ↔ is_Some (m !! k).
Proof.
  intros Hperm. exists (keyOrder m). unfold util.InterfaceKeyStrings.
  assert (length (keyOrder m) = size m) as Hlen
    by (rewrite Hperm; change (size (dom m) = size m); apply size_dom).
  split.
  - rewrite <- Hlen, assign_each_all. now rewrite list_fmap_id.
  - split; [rewrite Hperm; apply NoDup_elements|]. split; [exact Hlen|].
    intros k. now rewrite Hperm, elem_of_elements, elem_of_dom.
Qed.

(** X18: [StepsAsInterfaceSlice] and [InspectAsInterfaceSlice] never index
    outside the slice they made, and return the steps, and the inspections,
    of the layout in their order, each as a value of its own type: the
    slice has the length of the field and no entry is left nil. *)
Theorem AsInterfaceSlice_spec (l : Layout.t) :
  Layout.StepsAsInterfaceSlice l = Some (ItemStep <$> Layout.Steps l)
  ∧ Layout.InspectAsInterfaceSlice l = Some (ItemInspection <$> Layout.Inspect l)
  ∧ (∀ stepsI inspectionsI,
       Layout.StepsAsInterfaceSlice l = Some stepsI →
       Layout.InspectAsInterfaceSlice l = Some inspectionsI →
       length stepsI = length (Layout.Steps l)
       ∧ length inspectionsI = length (Layout.Inspect l)
       ∧ (ItemNil ∉ stepsI) ∧ (ItemNil ∉ inspectionsI)).
Proof.
  unfold Layout.StepsAsInterfaceSlice, Layout.InspectAsInterfaceSlice.
  rewrite !assign_each_all. split; [reflexivity|]. split; [reflexivity|].
  intros ? ? [= <-] [= <-]. rewrite !length_fmap.
  repeat split; try reflexivity;
    intros Hin; apply list_elem_of_fmap in Hin as (? & ? & _); discriminate.
Qed.

End IndexedStores.

(** * Further properties of [model.go] *)

Lemma raw_Some members k x :
  Metablock.raw (json.object_map
                   (λ x, match x with json.Null => None | _ => Some x end) members) k
  = Some x
  ↔ field members k = Some x ∧ x ≠ json.Null.
Proof.
  rewrite raw_field. destruct (field members k) as [[]|]; split;
    (intros [= <-]; split; [reflexivity|discriminate])
    || (intros [[= <-] H]; (reflexivity || (exfalso; now apply H)))
    || (intros H; discriminate H)
    || (intros [H _]; discriminate H).
Qed.

Lemma type_is_field smembers tag :
  Metablock.type_is (json.object_map id smembers) tag = true
  ↔ field smembers "_type" = Some (json.Str tag).
Proof.
  unfold Metablock.type_is, field.
  destruct (json.object_map id smembers !! "_type") as [[]|]; try (split; congruence).
  rewrite bool_decide_eq_true. split; congruence.
Qed.

Lemma first_signature_found before s after keyid sig :
  (∀ b, b ∈ before → Signature.KeyId b ≠ keyid) →
  Signature.KeyId s = keyid →
  Metablock.first_signature (before ++ s :: after) keyid sig = s.
Proof.
  intros Hbefore Hs. induction before as [|b before IH]; simpl.
  - now rewrite bool_decide_true.
  - rewrite bool_decide_false by (apply Hbefore; left).
    apply IH. intros b' Hb'. apply Hbefore. now right.
Qed.

Lemma first_signature_none signatures keyid sig :
  (∀ s, s ∈ signatures → Signature.KeyId s ≠ keyid) →
  Metablock.first_signature signatures keyid sig = sig.
Proof.
  induction signatures as [|s signatures IH]; intros Hnone; simpl; [reflexivity|].
  rewrite bool_decide_false by (apply Hnone; left).
  apply IH. intros s' Hs'. apply Hnone. now right.
Qed.

Lemma first_signature_app signatures more keyid :
  Metablock.first_signature signatures keyid Signature.zero ≠ Signature.zero →
  Metablock.first_signature (signatures ++ more) keyid Signature.zero
  = Metablock.first_signature signatures keyid Signature.zero.
Proof.
  induction signatures as [|s signatures IH]; simpl; [congruence|].
  case_bool_decide; [reflexivity|exact IH].
Qed.

Section MetablockMore.

Variable File : Type.
Variable os_Open : string → File + string.
Variable ioutil_ReadAll : File → string + string.
Variable json_parse : string → json.value + string.
Variable ParseFloat_ok : string → bool.
Variable unmarshal_Signatures :
  json.value → list Signature.t → list Signature.t * option string.
Variable unmarshal_Link : json.value → Link.t + string.
Variable unmarshal_Layout : json.value → Layout.t + string.
Variable encodeCanonical : signed → string + string.
Variable generateEd25519Signature : string → Key.t → Signature.t * option string.
Variable pkg_VerifySignature : Key.t → Signature.t → string → option string.

#[local] Abbreviation Load := (Metablock.Load File os_Open ioutil_ReadAll json_parse
                    ParseFloat_ok unmarshal_Signatures unmarshal_Link unmarshal_Layout).
#[local] Abbreviation Sign := (Metablock.Sign encodeCanonical generateEd25519Signature).
#[local] Abbreviation VerifySignature :=
  (Metablock.VerifySignature encodeCanonical pkg_VerifySignature).
#[local] Abbreviation GetSignableRepresentation :=
  (Metablock.GetSignableRepresentation encodeCanonical).

(** X19: whatever the error that [Load] returns, the [Signed] field is what
    it was before the call ([Signatures] may have been overwritten by then). *)
Theorem Load_error_keeps_Signed (path : string) (mb : Metablock.t) :
  (Load path mb).2 ≠ None →
  Metablock.Signed (Load path mb).1 = Metablock.Signed mb.
Proof.
  unfold Metablock.Load. repeat case_match; simpl; congruence.
Qed.

(** X20: [Load] returns without error only when the file opens, is read and
    parses to an object whose "signed" member is an object and whose
    "signatures" member is not null and decodes; [Signatures] is then the
    decoded list, and [Signed] a [Link] decoded from "signed" if its "_type"
    is "link", a [Layout] decoded from it if its "_type" is "layout": never
    nil nor anything else. *)
Theorem Load_success (path : string) (mb mb' : Metablock.t) :
  Load path mb = (mb', None) →
  ∃ jsonFile jsonBytes members smembers sv,
    os_Open path = inl jsonFile
    ∧ ioutil_ReadAll jsonFile = inl jsonBytes
    ∧ json_parse jsonBytes = inl (json.Object members)
    ∧ field members "signed" = Some (json.Object smembers)
    ∧ field members "signatures" = Some sv ∧ sv ≠ json.Null
    ∧ unmarshal_Signatures sv (Metablock.Signatures mb)
      = (Metablock.Signatures mb', None)
    ∧ ((field smembers "_type" = Some (json.Str "link")
        ∧ ∃ link, unmarshal_Link (json.Object smembers) = inl link
                  ∧ Metablock.Signed mb' = SignedLink link)
       ∨ (field smembers "_type" = Some (json.Str "layout")
          ∧ ∃ layout, unmarshal_Layout (json.Object smembers) = inl layout
                      ∧ Metablock.Signed mb' = SignedLayout layout)).
Proof.
  unfold Metablock.Load.
  destruct (os_Open path) as [jsonFile|] eqn:Hopen; [|discriminate].
  destruct (ioutil_ReadAll jsonFile) as [jsonBytes|] eqn:Hread; [|discriminate].
  destruct (json_parse jsonBytes) as [doc|] eqn:Hparse; [|discriminate].
  destruct doc as [| | | | |members]; try discriminate.
  cbn [Metablock.unmarshal_rawMb].
  destruct (Metablock.raw _ "signed") as [raw_signed|] eqn:Hrs; [|discriminate].
  destruct (Metablock.raw _ "signatures") as [raw_signatures|] eqn:Hrg;
    [|discriminate].
  apply raw_Some in Hrs as [Hsigned Hnn], Hrg as [Hsigs Hnull].
  destruct (unmarshal_Signatures raw_signatures (Metablock.Signatures mb))
    as [sigs [err|]] eqn:Hdec; [discriminate|].
  destruct raw_signed as [| | | | |smembers];
    try (now destruct Hnn); try (cbn; discriminate).
  unfold Metablock.unmarshal_signed_map.
  destruct (json.bad_number ParseFloat_ok (json.Object smembers)); [discriminate|].
  intros H. exists jsonFile, jsonBytes, members, smembers, raw_signatures.
  repeat (split; [first [reflexivity | assumption]|]).
  destruct (Metablock.type_is _ "link") eqn:Hlink.
  - apply type_is_field in Hlink.
    destruct (unmarshal_Link (json.Object smembers)) as [link|] eqn:Hl;
      [|discriminate].
    injection H as <-. split; [exact Hdec|]. left. eauto.
  - destruct (Metablock.type_is _ "layout") eqn:Hlayout; [|discriminate].
    apply type_is_field in Hlayout.
    destruct (unmarshal_Layout (json.Object smembers)) as [layout|] eqn:Hl;
      [|discriminate].
    injection H as <-. split; [exact Hdec|]. right. eauto.
Qed.

(** X21: on a file that parses to a value that is no object, [Load] leaves
    the Metablock as it was: for the text [null] it reports the missing
    parts, for anything else the type error of the JSON decoder. *)
Theorem Load_not_an_object (path : string) (mb : Metablock.t) jsonFile jsonBytes doc :
  os_Open path = inl jsonFile →
  ioutil_ReadAll jsonFile = inl jsonBytes →
  json_parse jsonBytes = inl doc →
  (∀ members, doc ≠ json.Object members) →
  Load path mb
  = (mb, Some match doc with
              | json.Null => missing_parts_error
              | _ => Foreign (json.type_error doc "map[string]*json.RawMessage")
              end).
Proof.
  intros Hopen Hread Hparse Hdoc. unfold Metablock.Load.
  rewrite Hopen, Hread, Hparse.
  destruct doc; try reflexivity. now destruct (Hdoc members).
Qed.

(** X22: when the "signed" member is there but is no object (a string, a
    number, an array), [Load] fails with the type error of the JSON decoder,
    not with the error about the "_type"; by then it has stored the decoded
    signatures, and [Signed] is untouched. *)
Theorem Load_signed_not_an_object (path : string) (mb : Metablock.t)
    jsonFile jsonBytes members v sv sigs :
  os_Open path = inl jsonFile →
  ioutil_ReadAll jsonFile = inl jsonBytes →
  json_parse jsonBytes = inl (json.Object members) →
  field members "signed" = Some v → v ≠ json.Null →
  (∀ smembers, v ≠ json.Object smembers) →
  field members "signatures" = Some sv → sv ≠ json.Null →
  unmarshal_Signatures sv (Metablock.Signatures mb) = (sigs, None) →
  Load path mb
  = ({| Metablock.Signed := Metablock.Signed mb; Metablock.Signatures := sigs |},
     Some (Foreign (json.type_error v "map[string]interface {}"))).
Proof.
  intros Hopen Hread Hparse Hv Hnn Hobj Hsv Hnull Hdec. unfold Metablock.Load.
  rewrite Hopen, Hread, Hparse. cbn [Metablock.unmarshal_rawMb].
  rewrite (proj2 (raw_Some members "signed" v)) by auto.
  rewrite (proj2 (raw_Some members "signatures" sv)) by auto.
  rewrite Hdec.
  destruct v; try reflexivity; [now destruct Hnn | now destruct (Hobj members0)].
Qed.

(** X23: [VerifySignature] reports that there is no signature exactly when
    no signature has the id of the key, or the first that has it is the zero
    [Signature]; for a key whose id is not empty that is: exactly when no
    signature has the id of the key. *)
Theorem VerifySignature_no_signature_iff (mb : Metablock.t) (key : Key.t) :
  (VerifySignature mb key = Some (no_signature_error (Key.KeyId key))
   ↔ Metablock.first_signature (Metablock.Signatures mb) (Key.KeyId key)
       Signature.zero = Signature.zero)
  ∧ (Key.KeyId key ≠ EmptyString →
     (VerifySignature mb key = Some (no_signature_error (Key.KeyId key))
      ↔ ∀ s, s ∈ Metablock.Signatures mb → Signature.KeyId s ≠ Key.KeyId key)).
Proof.
  assert (VerifySignature mb key = Some (no_signature_error (Key.KeyId key))
          ↔ Metablock.first_signature (Metablock.Signatures mb) (Key.KeyId key)
              Signature.zero = Signature.zero) as Hiff.
  { unfold Metablock.VerifySignature.
    case_bool_decide as Hz; [tauto|].
    split; [|tauto]. intros H. exfalso.
    destruct (Metablock.GetSignableRepresentation encodeCanonical mb); [|discriminate].
    destruct (pkg_VerifySignature _ _ _); discriminate. }
  split; [exact Hiff|]. intros Hid. rewrite Hiff, first_signature_zero.
  split; [|auto]. intros [Hnone|(_ & _ & _ & Hempty & _)]; [exact Hnone|contradiction].
Qed.

(** X24: [VerifySignature] consults the backend for the first signature that
    has the id of the key, with the canonical bytes of [Signed], and for no
    other: the signatures before it and after it play no part, and an error
    of the canonicalizer comes first. *)
Theorem VerifySignature_first (payload : signed) (key : Key.t)
    (before after : list Signature.t) (s : Signature.t) :
  (∀ b, b ∈ before → Signature.KeyId b ≠ Key.KeyId key) →
  Signature.KeyId s = Key.KeyId key →
  s ≠ Signature.zero →
  VerifySignature {| Metablock.Signed := payload;
                     Metablock.Signatures := before ++ s :: after |} key
  = match encodeCanonical payload with
    | inr err => Some (Foreign err)
    | inl dataCanonical => Foreign <$> pkg_VerifySignature key s dataCanonical
    end.
Proof.
  intros Hbefore Hs Hnz.
  unfold Metablock.VerifySignature, Metablock.GetSignableRepresentation.
  cbn [Metablock.Signatures Metablock.Signed].
  rewrite first_signature_found by assumption.
  rewrite bool_decide_false by assumption.
  destruct (encodeCanonical payload); [|reflexivity].
  destruct (pkg_VerifySignature key s s0); reflexivity.
Qed.

(** X25: whatever its outcome, [Sign] leaves [Signed] and its canonical
    bytes as they were and keeps the signatures that were there, in their
    order, at the front; it adds one signature when it returns no error and
    none when it returns one. *)
Theorem Sign_keeps (mb : Metablock.t) (key : Key.t) :
  Metablock.Signed (Sign mb key).1 = Metablock.Signed mb
  ∧ GetSignableRepresentation (Sign mb key).1 = GetSignableRepresentation mb
  ∧ Metablock.Signatures mb `prefix_of` Metablock.Signatures (Sign mb key).1
  ∧ length (Metablock.Signatures (Sign mb key).1)
    = length (Metablock.Signatures mb)
      + (if (Sign mb key).2 is None then 1 else 0).
Proof.
  unfold Metablock.Sign, Metablock.GetSignableRepresentation.
  destruct (encodeCanonical (Metablock.Signed mb)) as [dataCanonical|err] eqn:Hcan;
    [|simpl; rewrite Hcan; repeat split; [reflexivity | lia]].
  destruct (bool_decide (Key.KeyType key = "ed25519")
            && bool_decide (Key.Scheme key = "ed25519"));
    [|simpl; rewrite Hcan; repeat split; [reflexivity | lia]].
  destruct (generateEd25519Signature dataCanonical key) as [sig [err|]];
    simpl; rewrite Hcan; repeat split; try reflexivity; try lia.
  - now apply prefix_app_r.
  - rewrite length_app. simpl. lia.
Qed.

(** X26: after a [Sign] that succeeds on a Metablock in which no signature
    had the id of the key, [VerifySignature] with that key hands the backend
    the signature just made and the canonical bytes it was made over,
    provided the backend tagged the signature with the id of the key and did
    not return the zero [Signature]. *)
Theorem Sign_then_VerifySignature (mb : Metablock.t) (key : Key.t)
    (dataCanonical : string) (sig : Signature.t) :
  (∀ s, s ∈ Metablock.Signatures mb → Signature.KeyId s ≠ Key.KeyId key) →
  supported key →
  encodeCanonical (Metablock.Signed mb) = inl dataCanonical →
  generateEd25519Signature dataCanonical key = (sig, None) →
  Signature.KeyId sig = Key.KeyId key →
  sig ≠ Signature.zero →
  (Sign mb key).2 = None
  ∧ VerifySignature (Sign mb key).1 key
    = Foreign <$> pkg_VerifySignature key sig dataCanonical.
Proof.
  intros Hnone [Htype Hscheme] Hcan Hgen Htag Hnz.
  unfold Metablock.Sign, Metablock.GetSignableRepresentation.
  rewrite Hcan, !bool_decide_true, Hgen by assumption. simpl.
  split; [reflexivity|].
  unfold Metablock.VerifySignature, Metablock.GetSignableRepresentation.
  cbn [Metablock.Signatures Metablock.Signed].
  rewrite first_signature_found by assumption.
  rewrite bool_decide_false, Hcan by assumption.
  destruct (pkg_VerifySignature key sig dataCanonical); reflexivity.
Qed.

(** X27: [Sign] does not change the verdict of [VerifySignature] for a key
    that had a signature to verify: if [VerifySignature] with a key did not
    report a missing signature, it returns the same after a [Sign] with any
    key, since the signature added comes last and the first one is
    verified. *)
Theorem Sign_keeps_verdict (mb : Metablock.t) (signer verifier : Key.t) :
  VerifySignature mb verifier ≠ Some (no_signature_error (Key.KeyId verifier)) →
  VerifySignature (Sign mb signer).1 verifier = VerifySignature mb verifier.
Proof.
  intros Hfound.
  assert (Metablock.first_signature (Metablock.Signatures mb) (Key.KeyId verifier)
            Signature.zero ≠ Signature.zero) as Hnz.
  { intros Hz. apply Hfound. unfold Metablock.VerifySignature.
    now rewrite bool_decide_true. }
  unfold Metablock.Sign, Metablock.GetSignableRepresentation.
  destruct (encodeCanonical (Metablock.Signed mb)) as [dataCanonical|err] eqn:Hcan;
    [|reflexivity].
  destruct (bool_decide (Key.KeyType signer = "ed25519")
            && bool_decide (Key.Scheme signer = "ed25519")); [|reflexivity].
  destruct (generateEd25519Signature dataCanonical signer) as [sig [err|]];
    [reflexivity|].
  unfold Metablock.VerifySignature, Metablock.GetSignableRepresentation.
  cbn [fst Metablock.Signatures Metablock.Signed].
  now rewrite first_signature_app.
Qed.

End MetablockMore.

(** * The further statements on the sample inputs *)

(** X2 on the first sample set and a new element. *)
Lemma Add_spec_sample :
  ∃ w', util.Add (mapRef 1%positive) "d.go" sample_world = Done () w' ∧
    stdout w' = stdout sample_world ∧
    (∀ x, member w' (mapRef 1%positive) x ↔
          x = "d.go" ∨ member sample_world (mapRef 1%positive) x) ∧
    (∀ t, t ≠ mapRef 1%positive → contents w' t = contents sample_world t) ∧
    ("d.go" ∈ ({[ "a.txt"; "b.go"; "c.go" ]} : gset string) → w' = sample_world).
Proof.
  apply (Add_spec 1%positive {[ "a.txt"; "b.go"; "c.go" ]} "d.go" sample_world).
  reflexivity.
Defined.

(** X3 on the first sample set and one of its members. *)
Lemma Remove_spec_sample :
  ∃ w', util.Remove (mapRef 1%positive) "b.go" sample_world = Done () w' ∧
    stdout w' = stdout sample_world ∧
    (∀ x, member w' (mapRef 1%positive) x ↔
          x ≠ "b.go" ∧ member sample_world (mapRef 1%positive) x) ∧
    (∀ t, t ≠ mapRef 1%positive → contents w' t = contents sample_world t) ∧
    (¬ member sample_world (mapRef 1%positive) "b.go" → w' = sample_world).
Proof.
  apply (Remove_spec (mapRef 1%positive) "b.go" sample_world).
  eexists. reflexivity.
Defined.

(** X4 on the first sample set. *)
Lemma Add_Remove_round_trip_sample :
  ("d.go" ∉ ({[ "a.txt"; "b.go"; "c.go" ]} : gset string) →
   (util.Add (mapRef 1%positive) "d.go";; util.Remove (mapRef 1%positive) "d.go")
     sample_world = Done () sample_world)
  ∧ ("d.go" ∈ ({[ "a.txt"; "b.go"; "c.go" ]} : gset string) →
     (util.Remove (mapRef 1%positive) "d.go";; util.Add (mapRef 1%positive) "d.go")
       sample_world = Done () sample_world).
Proof.
  apply (Add_Remove_round_trip 1%positive {[ "a.txt"; "b.go"; "c.go" ]} "d.go"
           sample_world).
  reflexivity.
Defined.

(** X5 in the sample world. *)
Lemma nil_set_sample :
  util.Has nilMap "a.txt" sample_world = Done false sample_world
  ∧ util.Remove nilMap "a.txt" sample_world = Done () sample_world
  ∧ util.Slice elements nilMap sample_world = Done [] sample_world
  ∧ builds sample_world ∅ []
      (util.Intersection elements nilMap (mapRef 1%positive) sample_world)
  ∧ builds sample_world ∅ []
      (util.Difference elements nilMap (mapRef 1%positive) sample_world)
  ∧ builds sample_world ∅ [] (util.Filter elements nilMap "*" sample_world)
  ∧ util.Add nilMap "a.txt" sample_world = Panic nil_map_assignment.
Proof.
  apply (nil_set elements). intros c. reflexivity.
Defined.

(** X6 on the sample sets. *)
Lemma Difference_Has_sample :
  ∃ res w',
    util.Difference elements (mapRef 1%positive) (mapRef 2%positive) sample_world
    = Done res w' ∧
    ∀ x, (member w' res x ↔
          member sample_world (mapRef 1%positive) x
          ∧ ¬ member sample_world (mapRef 2%positive) x)
         ∧ ¬ (member w' res x ∧ member w' (mapRef 2%positive) x).
Proof.
  apply (Difference_Has elements).
  - intros c. reflexivity.
  - eexists. reflexivity.
  - eexists. reflexivity.
Defined.

(** X7 on the sample sets. *)
Lemma Intersection_comm_sample :
  ∃ res w' res2 w2,
    util.Intersection elements (mapRef 1%positive) (mapRef 2%positive) sample_world
    = Done res w'
    ∧ util.Intersection elements (mapRef 2%positive) (mapRef 1%positive) sample_world
      = Done res2 w2
    ∧ ∀ x, member w' res x ↔ member w2 res2 x.
Proof.
  apply (Intersection_comm elements).
  - intros c. reflexivity.
  - eexists. reflexivity.
  - eexists. reflexivity.
Defined.

(** X8 on the sample sets. *)
Lemma Intersection_Difference_split_sample :
  ∃ both w1 only w2,
    util.Intersection elements (mapRef 1%positive) (mapRef 2%positive) sample_world
    = Done both w1
    ∧ util.Difference elements (mapRef 1%positive) (mapRef 2%positive) w1
      = Done only w2
    ∧ both ≠ only
    ∧ ∀ x, (member w2 (mapRef 1%positive) x ↔ member w2 both x ∨ member w2 only x)
           ∧ ¬ (member w2 both x ∧ member w2 only x).
Proof.
  apply (Intersection_Difference_split elements).
  - intros c. reflexivity.
  - eexists. reflexivity.
  - eexists. reflexivity.
Defined.

(** X9 on the second sample set. *)
Lemma copies_and_empties_sample :
  builds sample_world {[ "b.go"; "d/e.go" ]} []
    (util.Intersection elements (mapRef 2%positive) (mapRef 2%positive) sample_world)
  ∧ builds sample_world {[ "b.go"; "d/e.go" ]} []
      (util.Difference elements (mapRef 2%positive) nilMap sample_world)
  ∧ builds sample_world ∅ []
      (util.Difference elements (mapRef 2%positive) (mapRef 2%positive) sample_world)
  ∧ builds sample_world ∅ []
      (util.Intersection elements (mapRef 2%positive) nilMap sample_world).
Proof.
  apply (copies_and_empties elements).
  - intros c. reflexivity.
  - reflexivity.
Defined.

(** X10 on the second sample set, with a pattern that fails with an error on
    [b.go] and rejects [d/e.go]. *)
Lemma Filter_spec_sample :
  ∃ res w', util.Filter elements (mapRef 2%positive) "b[" sample_world
            = Done res w' ∧
    created sample_world res ∧ preserved sample_world w' ∧
    (∀ x, member w' res x ↔
          member sample_world (mapRef 2%positive) x
          ∧ filepath.Match "b[" x = (true, None)) ∧
    stdout w'
    = stdout sample_world
      ++ concat (warns "b[" <$> elements ({[ "b.go"; "d/e.go" ]} : gset string)).
Proof.
  apply (Filter_spec elements).
  - intros c. reflexivity.
  - reflexivity.
Defined.

Example Filter_one_warning :
  util.Filter elements (mapRef 2%positive) "b[" sample_world
  = Done (mapRef 3%positive)
      {| mem := <[3%positive := ∅]> (mem sample_world);
         stdout := [util.warning filepath.ErrBadPattern "b["] |}.
Proof. vm_compute. reflexivity. Qed.

(** X11 on the first sample set. *)
Lemma Filter_plain_sample :
  ∃ res w', util.Filter elements (mapRef 1%positive) "b.go" sample_world
            = Done res w' ∧
    stdout w' = stdout sample_world ∧
    ∀ x, member w' res x ↔ x = "b.go" ∧ member sample_world (mapRef 1%positive) x.
Proof.
  apply (Filter_plain elements) with (c := {[ "a.txt"; "b.go"; "c.go" ]}).
  - intros c. reflexivity.
  - reflexivity.
  - reflexivity.
Defined.

(** X12 on the first sample set. *)
Lemma Filter_again_sample :
  ∃ res w' res2 w2,
    util.Filter elements (mapRef 1%positive) "*.go" sample_world = Done res w'
    ∧ util.Filter elements res "*.go" w' = Done res2 w2
    ∧ res2 ≠ res
    ∧ ∀ x, member w2 res2 x ↔ member w2 res x.
Proof.
  apply (Filter_again elements).
  - intros c. reflexivity.
  - eexists. reflexivity.
Defined.

(** X13 on the first sample set. *)
Lemma Slice_spec_sample :
  ∃ l, util.Slice elements (mapRef 1%positive) sample_world = Done l sample_world ∧
    NoDup l ∧ length l = size ({[ "a.txt"; "b.go"; "c.go" ]} : gset string)
    ∧ ∀ x, x ∈ l ↔ member sample_world (mapRef 1%positive) x.
Proof.
  apply (Slice_spec elements).
  - intros c. reflexivity.
  - reflexivity.
Defined.

(** X14 on the first sample set. *)
Lemma NewSet_Slice_sample :
  ∃ l res w', util.Slice elements (mapRef 1%positive) sample_world = Done l sample_world
    ∧ util.NewSet l sample_world = Done res w'
    ∧ created sample_world res
    ∧ ∀ x, (member w' res x ↔ member sample_world (mapRef 1%positive) x)
           ∧ (member w' (mapRef 1%positive) x
              ↔ member sample_world (mapRef 1%positive) x).
Proof.
  apply (NewSet_Slice elements).
  - intros c. reflexivity.
  - eexists. reflexivity.
Defined.

(** X17 on two lists of hash algorithms. *)
Lemma subsetCheck_Difference_sample :
  ∃ sa w1 sb w2 d w3,
    util.NewSet ["sha256"; "md5"] sample_world = Done sa w1
    ∧ util.NewSet ["sha256"; "sha512"] w1 = Done sb w2
    ∧ util.Difference elements sa sb w2 = Done d w3
    ∧ (util.subsetCheck ["sha256"; "md5"] ["sha256"; "sha512"] = true
       ↔ ∀ x, ¬ member w3 d x).
Proof.
  apply (subsetCheck_Difference elements). intros c. reflexivity.
Defined.

(** X15 on a map with two keys. *)
Lemma InterfaceKeyStrings_spec_sample :
  ∃ res,
    util.InterfaceKeyStrings (λ m : gmap string json.value, elements (dom m))
      {[ "materials" := json.Null; "products" := json.Null ]} = Some res ∧
    NoDup res
    ∧ length res
      = size ({[ "materials" := json.Null; "products" := json.Null ]}
              : gmap string json.value)
    ∧ ∀ k, k ∈ res ↔
           is_Some (({[ "materials" := json.Null; "products" := json.Null ]}
                     : gmap string json.value) !! k).
Proof.
  apply (InterfaceKeyStrings_spec (λ m : gmap string json.value, elements (dom m))).
  intros m'. reflexivity.
Defined.

(** X19 on the file with an unknown type. *)
Lemma Load_error_keeps_Signed_sample :
  (sample.Load "bogus.link" sample.mb).2 ≠ None
  ∧ Metablock.Signed (sample.Load "bogus.link" sample.mb).1 = SignedLink sample.link.
Proof.
  split; [discriminate|].
  apply (Load_error_keeps_Signed string sample.os_Open sample.ioutil_ReadAll
           sample.json_parse sample.ParseFloat_ok sample.unmarshal_Signatures
           sample.unmarshal_Link sample.unmarshal_Layout "bogus.link" sample.mb).
  discriminate.
Defined.

(** X20 on the file of a layout. *)
Lemma Load_success_sample :
  ∃ jsonFile jsonBytes members smembers sv,
    sample.os_Open "root.layout" = inl jsonFile
    ∧ sample.ioutil_ReadAll jsonFile = inl jsonBytes
    ∧ sample.json_parse jsonBytes = inl (json.Object members)
    ∧ field members "signed" = Some (json.Object smembers)
    ∧ field members "signatures" = Some sv ∧ sv ≠ json.Null
    ∧ sample.unmarshal_Signatures sv (Metablock.Signatures sample.mb) = ([], None)
    ∧ ((field smembers "_type" = Some (json.Str "link")
        ∧ ∃ link, sample.unmarshal_Link (json.Object smembers) = inl link
                  ∧ SignedLayout sample.layout = SignedLink link)
       ∨ (field smembers "_type" = Some (json.Str "layout")
          ∧ ∃ layout, sample.unmarshal_Layout (json.Object smembers) = inl layout
                      ∧ SignedLayout sample.layout = SignedLayout layout)).
Proof.
  apply (Load_success string sample.os_Open sample.ioutil_ReadAll
           sample.json_parse sample.ParseFloat_ok sample.unmarshal_Signatures
           sample.unmarshal_Link sample.unmarshal_Layout "root.layout" sample.mb
           {| Metablock.Signed := SignedLayout sample.layout;
              Metablock.Signatures := [] |}).
  reflexivity.
Defined.

(** X21 on a file that holds an array. *)
Lemma Load_not_an_object_sample :
  sample.Load_more "array.link" sample.mb
  = (sample.mb,
     Some (Foreign (json.type_error (json.Array []) "map[string]*json.RawMessage"))).
Proof.
  apply (Load_not_an_object string sample.os_Open_more sample.ioutil_ReadAll
           sample.json_parse_more sample.ParseFloat_ok sample.unmarshal_Signatures
           sample.unmarshal_Link sample.unmarshal_Layout "array.link" sample.mb
           "[]" "[]" (json.Array [])).
  - reflexivity.
  - reflexivity.
  - reflexivity.
  - discriminate.
Defined.

(** X22 on a file whose signed part is a string. *)
Lemma Load_signed_not_an_object_sample :
  sample.Load_more "text.link" sample.mb
  = ({| Metablock.Signed := SignedLink sample.link; Metablock.Signatures := [] |},
     Some (Foreign (json.type_error (json.Str "link") "map[string]interface {}"))).
Proof.
  refine (Load_signed_not_an_object string sample.os_Open_more sample.ioutil_ReadAll
           sample.json_parse_more sample.ParseFloat_ok sample.unmarshal_Signatures
           sample.unmarshal_Link sample.unmarshal_Layout "text.link" sample.mb
           _ _ [("signed", json.Str "link"); ("signatures", json.Array [])]
           (json.Str "link") (json.Array []) [] _ _ _ _ _ _ _ _ _);
    try reflexivity; try discriminate.
Defined.

(** X24 on a Metablock signed by two keys, the sample key second and twice. *)
Lemma VerifySignature_first_sample :
  sample.VerifySignature
    {| Metablock.Signed := SignedLink sample.link;
       Metablock.Signatures :=
         [{| Signature.KeyId := "776a00e2"; Signature.Sig := "00" |}]
         ++ {| Signature.KeyId := "2f89b927";
               Signature.Sig := "29ad{_type:link,name:}" |}
         :: [{| Signature.KeyId := "2f89b927"; Signature.Sig := "stale" |}] |}
    sample.ed25519_key
  = match sample.encodeCanonical (SignedLink sample.link) with
    | inr err => Some (Foreign err)
    | inl dataCanonical =>
        Foreign <$> sample.pkg_VerifySignature sample.ed25519_key
                      {| Signature.KeyId := "2f89b927";
                         Signature.Sig := "29ad{_type:link,name:}" |} dataCanonical
    end.
Proof.
  apply (VerifySignature_first sample.encodeCanonical sample.pkg_VerifySignature).
  - intros b Hb. apply list_elem_of_singleton in Hb as ->. discriminate.
  - reflexivity.
  - discriminate.
Defined.

(** X26 on the sample Metablock and key: the signature verifies. *)
Lemma Sign_then_VerifySignature_sample :
  (sample.Sign sample.mb sample.ed25519_key).2 = None
  ∧ sample.VerifySignature (sample.Sign sample.mb sample.ed25519_key).1
      sample.ed25519_key
    = Foreign <$> sample.pkg_VerifySignature sample.ed25519_key
                    {| Signature.KeyId := "2f89b927";
                       Signature.Sig := "29ad{_type:link,name:}" |}
                    "{_type:link,name:}".
Proof.
  apply (Sign_then_VerifySignature sample.encodeCanonical
           sample.generateEd25519Signature sample.pkg_VerifySignature
           sample.mb sample.ed25519_key).
  - intros s Hs. inversion Hs.
  - split; reflexivity.
  - reflexivity.
  - reflexivity.
  - reflexivity.
  - discriminate.
Defined.

(** X27 on a Metablock that carries a stale signature of the sample key:
    signing again does not make it verify. *)
Lemma Sign_keeps_verdict_sample :
  sample.VerifySignature
    {| Metablock.Signed := SignedLink sample.link;
       Metablock.Signatures :=
         [{| Signature.KeyId := "2f89b927"; Signature.Sig := "stale" |}] |}
    sample.ed25519_key
  ≠ Some (no_signature_error "2f89b927")
  ∧ sample.VerifySignature
      (sample.Sign
         {| Metablock.Signed := SignedLink sample.link;
            Metablock.Signatures :=
              [{| Signature.KeyId := "2f89b927"; Signature.Sig := "stale" |}] |}
         sample.ed25519_key).1
      sample.ed25519_key
    = Some (Foreign "invalid signature").
Proof.
  split; [discriminate|].
  apply (Sign_keeps_verdict sample.encodeCanonical sample.generateEd25519Signature
           sample.pkg_VerifySignature
           {| Metablock.Signed := SignedLink sample.link;
              Metablock.Signatures :=
                [{| Signature.KeyId := "2f89b927"; Signature.Sig := "stale" |}] |}
           sample.ed25519_key sample.ed25519_key).
  discriminate.
Defined.

(** Signing the sample Metablock and verifying: the backend accepts. *)
Example Sign_VerifySignature_accepts :
  sample.VerifySignature (sample.Sign sample.mb sample.ed25519_key).1
    sample.ed25519_key = None.
Proof. reflexivity. Qed.
